(** * MTSP 2.1.0: the shell music player

    A shallow embedding of [ShellMusicPlayer] (MTSP_2.1.0.py): the track
    catalog kept in SQLite, the library scan, playlist creation, the
    playback controller that drives one external [mpv] process, and the
    command loop that calls them.

    Everything outside the interpreter is an explicit input: the
    directory tree read by [os.walk], with file names as the bytes the
    file system holds, what [mutagen.File] answers for a path, whether
    [Popen], [terminate], [wait] and [send_signal] raise, whether the
    player process is still running, and the numbers drawn by
    [random.shuffle].  Everything the program does to the outside
    (printing, spawning, signalling) is an explicit output, a list of
    events. *)

From Stdlib Require Import ZArith Lia Ascii String.
From stdpp Require Import base list strings gmap pretty.

Open Scope Z_scope.

(** ** Python values and built-ins used by the program *)

Module Py.

(** [l[i]] for a Python list and a Python integer: indices count from
    the front when non-negative and from the back when negative;
    anything else raises [IndexError] (here [None]). *)
Definition getitem {A} (l : list A) (i : Z) : option A :=
  let n := Z.of_nat (length l) in
  if decide (0 ≤ i < n) then l !! Z.to_nat i
  else if decide (- n ≤ i < 0) then l !! Z.to_nat (n + i)
  else None.

(** [x[i], x[j] = x[j], x[i]]: both reads happen first, then [x[i]] is
    stored, then [x[j]]. *)
Definition swap {A} (x : list A) (i j : nat) : list A :=
  match x !! i, x !! j with
  | Some a, Some b => <[j := a]> (<[i := b]> x)
  | _, _ => x
  end.

(** [random.shuffle(x)]:
    [for i in reversed(range(1, len(x))): j = randbelow(i + 1); swap].
    [rand i] is the number the generator hands out at position [i];
    [randbelow (i + 1)] lies in [0 .. i], which the [mod] enforces. *)
Fixpoint shuffle_down {A} (rand : nat → nat) (i : nat) (x : list A) : list A :=
  match i with
  | O => x
  | S i' => shuffle_down rand i' (swap x i (rand i `mod` (i + 1))%nat)
  end.

Definition shuffle {A} (rand : nat → nat) (x : list A) : list A :=
  shuffle_down rand (length x - 1)%nat x.

(** [str.lower] on one character.  The model folds the ASCII letters
    only; the suffixes this program compares with are ASCII, and no
    character outside ASCII lowers to one of the letters in them. *)
Definition lower_char (c : Ascii.ascii) : Ascii.ascii :=
  let n := Ascii.nat_of_ascii c in
  if decide (65 ≤ n ≤ 90)%nat then Ascii.ascii_of_nat (n + 32) else c.

Fixpoint lower (s : string) : string :=
  match s with
  | EmptyString => EmptyString
  | String c s' => String (lower_char c) (lower s')
  end.

(** [s.endswith(suffix)] *)
Fixpoint endswith (s suffix : string) : bool :=
  if String.eqb s suffix then true
  else match s with
       | EmptyString => false
       | String _ s' => endswith s' suffix
       end.

(** [s.endswith(suffixes)] for a tuple of suffixes *)
Definition endswith_any (s : string) (suffixes : list string) : bool :=
  existsb (endswith s) suffixes.

(** [s.startswith(prefix)] *)
Definition startswith (s prefix : string) : bool := String.prefix prefix s.

(** [os.path.join(a, b)] of posixpath *)
Definition path_join (a b : string) : string :=
  if startswith b "/" then b
  else if String.eqb a "" || endswith a "/" then a +:+ b
  else a +:+ "/" +:+ b.

(** *** Strings that cannot be encoded

    A string of the model is the UTF-8 bytes of a Python [str].  The
    names [os.walk] hands out are decoded from the bytes of the file
    system with the [surrogateescape] handler (the file system encoding
    being UTF-8): a name whose bytes are not well-formed UTF-8 comes out
    as a [str] holding lone surrogates, which the strict encoder refuses
    with [UnicodeEncodeError].  sqlite3 runs that encoder on every [str]
    bound to a statement.  Such a name is kept here as its bytes, and
    [utf8_valid] tells whether the encoder accepts it. *)

(** A leading byte: how many continuation bytes follow, and the bounds
    of the first of them.  The bounds shut out overlong forms, the
    surrogates and everything above U+10FFFF. *)
Definition utf8_lead (b : nat) : option (nat * nat * nat) :=
  if (b <=? 127)%nat then Some (0, 128, 191)%nat
  else if ((194 <=? b) && (b <=? 223))%nat then Some (1, 128, 191)%nat
  else if (b =? 224)%nat then Some (2, 160, 191)%nat
  else if ((225 <=? b) && (b <=? 236))%nat then Some (2, 128, 191)%nat
  else if (b =? 237)%nat then Some (2, 128, 159)%nat
  else if ((238 <=? b) && (b <=? 239))%nat then Some (2, 128, 191)%nat
  else if (b =? 240)%nat then Some (3, 144, 191)%nat
  else if ((241 <=? b) && (b <=? 243))%nat then Some (3, 128, 191)%nat
  else if (b =? 244)%nat then Some (3, 128, 143)%nat
  else None.

(** [need] continuation bytes are still due, the next one within
    [lo .. hi]. *)
Fixpoint utf8_valid_from (need lo hi : nat) (s : string) : bool :=
  match s with
  | EmptyString => (need =? 0)%nat
  | String c s' =>
      let b := Ascii.nat_of_ascii c in
      match need with
      | O =>
          match utf8_lead b with
          | Some (n, l, h) => utf8_valid_from n l h s'
          | None => false
          end
      | S k => (lo <=? b)%nat && (b <=? hi)%nat && utf8_valid_from k 128 191 s'
      end
  end.

Definition utf8_valid (s : string) : bool := utf8_valid_from 0 128 191 s.

End Py.

(** ** The directory tree as [os.walk] reads it *)

Module Os.

(** A directory entry.  A directory whose listing is [None] cannot be
    listed: [os.scandir] raises on it. *)
#[warnings="-register-all"]
Inductive Node :=
| File (name : string)
| Dir (name : string) (listing : option (list Node)).

Definition file_names (entries : list Node) : list string :=
  flat_map (λ n, match n with File name => [name] | Dir _ _ => [] end) entries.

(** [os.walk(top)], top-down and with the default [onerror=None]: a
    directory that cannot be listed yields nothing and is not entered.
    [n] is what lies at path [top]; each element is [(root, files)],
    the [dirs] component being unused by the program. *)
Fixpoint walk (top : string) (n : Node) {struct n} : list (string * list string) :=
  match n with
  | File _ => []
  | Dir _ None => []
  | Dir _ (Some entries) =>
      (top, file_names entries) ::
      flat_map (λ c, match c with
                     | File _ => []
                     | Dir name _ => walk (Py.path_join top name) c
                     end) entries
  end.

End Os.

(** ** Tracks as the controller sees them

    A row of [SELECT id, path, filename, artist, album FROM tracks]. *)

Record Track := mkTrack {
  track_id : Z;
  track_path : string;
  track_filename : string;
  track_artist : string;
  track_album : string
}.

#[global] Instance Track_eq_dec : EqDecision Track.
Proof. solve_decision. Defined.

(** ** The catalog: three SQLite tables behind one connection *)

Module Catalog.

(** A row of [tracks].  [duration] is a REAL column; the only number
    the program ever binds to it is the integer [0]. *)
Record TrackRow := mkTrackRow {
  row_id : Z;
  row_path : string;
  row_filename : string;
  row_artist : string;
  row_album : string;
  row_duration : Z
}.

Record PlaylistRow := mkPlaylistRow {
  playlist_id : Z;
  playlist_name : string
}.

(** The tables, each in rowid order. *)
Record Tables := mkTables {
  tracks : list TrackRow;
  playlists : list PlaylistRow;
  playlist_tracks : list (Z * Z)     (* (playlist_id, track_id) *)
}.

(** [_create_database] on a fresh file: three empty tables. *)
Definition empty : Tables := mkTables [] [] [].

(** The connection: what its statements see, and what has been
    committed.  Python's sqlite3 opens a transaction before an INSERT
    and keeps it open until [commit]. *)
Record Conn := mkConn {
  view : Tables;
  durable : Tables
}.

Definition commit (t : Tables) : Conn := mkConn t t.

(** The exceptions a statement of the program can raise, the database
    file itself being in order. *)
Inductive Exn :=
| IntegrityError      (* a UNIQUE constraint failed *)
| ProgrammingError    (* a parameter of a type sqlite3 cannot bind *)
| UnicodeEncodeError. (* a str parameter that cannot be encoded as UTF-8 *)

(** The id SQLite gives a row inserted without one into a table with
    an [INTEGER PRIMARY KEY]: one more than the largest id in use, or 1
    in an empty table. *)
Definition next_rowid (ids : list Z) : Z :=
  match ids with
  | [] => 1
  | i :: rest => 1 + foldr Z.max i rest
  end.

Definition paths (t : Tables) : list string := map row_path (tracks t).

(** [SELECT id FROM tracks WHERE path = ?] followed by [fetchone()] *)
Definition select_id_by_path (t : Tables) (path : string) : option Z :=
  row_id <$> find (λ r, String.eqb (row_path r) path) (tracks t).

(** *** Metadata *)

(** What [mutagen.File(path, easy=True)] does: raise, return [None]
    for a file it cannot identify, or return the file's tags, a
    mapping from keys to lists of strings. *)
Inductive MutagenFile :=
| MutagenRaises
| MutagenNone
| MutagenTags (tags : gmap string (list string)).

(** The value bound to [duration]: the default [0], or whatever the
    ['length'] key holds. *)
Inductive Duration :=
| DurationInt (n : Z)
| DurationList (l : list string).

Definition default_metadata : string * string * Duration :=
  ("Unknown Artist", "Unknown Album", DurationInt 0)%string.

(** The [try]/[except Exception] block of the scan.  Indexing [[0]]
    into an empty list, or calling [.get] on [None], lands in the
    handler, which resets all three values. *)
Definition extract_metadata (m : MutagenFile) : string * string * Duration :=
  match m with
  | MutagenRaises | MutagenNone => default_metadata
  | MutagenTags tags =>
      match Py.getitem (default ["Unknown Artist"%string] (tags !! "artist"%string)) 0,
            Py.getitem (default ["Unknown Album"%string] (tags !! "album"%string)) 0 with
      | Some artist, Some album =>
          (artist, album,
           match tags !! "length"%string with
           | Some l => DurationList l
           | None => DurationInt 0
           end)
      | _, _ => default_metadata
      end
  end.

Definition add_track_row (t : Tables) (r : TrackRow) : Tables :=
  mkTables (tracks t ++ [r]) (playlists t) (playlist_tracks t).

(** [INSERT INTO tracks (path, filename, artist, album, duration)]:
    binding a list raises before anything is written; a path already
    present violates UNIQUE. *)
Definition insert_track (t : Tables) (path filename artist album : string)
    (duration : Duration) : Exn + Tables :=
  match duration with
  | DurationList _ => inl ProgrammingError
  | DurationInt d =>
      if bool_decide (path ∈ paths t) then inl IntegrityError
      else inr (add_track_row t
                  (mkTrackRow (next_rowid (map row_id (tracks t)))
                              path filename artist album d))
  end.

(** *** Scanning *)

Definition supported_formats : list string :=
  [".mp3"; ".wav"; ".flac"; ".ogg"; ".m4a"]%string.

(** [file.lower().endswith(supported_formats)] *)
Definition supported (file : string) : bool :=
  Py.endswith_any (Py.lower file) supported_formats.

(** The body of the inner loop of [scan_music_library], for one file of
    the directory [root].  The result is the tables and either the new
    value of [tracks_added] or the exception that left the body.

    The SELECT binds [full_path] and stands outside the [try]: a path
    that cannot be encoded raises there, before any metadata is read.
    The INSERT binds the same path and the file name, a part of it, so
    it adds no encoding failure of its own. *)
Definition scan_file (meta : string → MutagenFile) (root file : string)
    (t : Tables) (tracks_added : Z) : Tables * (Exn + Z) :=
  if supported file then
    let full_path := Py.path_join root file in
    if Py.utf8_valid full_path then
      match select_id_by_path t full_path with
      | Some _ => (t, inr tracks_added)                    (* continue *)
      | None =>
          let '(artist, album, duration) := extract_metadata (meta full_path) in
          match insert_track t full_path file artist album duration with
          | inl exn => (t, inl exn)
          | inr t' => (t', inr (tracks_added + 1))
          end
      end
    else (t, inl UnicodeEncodeError)
  else (t, inr tracks_added).

(** The inner loop.  An exception stops it with the tables as they are
    at that point. *)
Fixpoint scan_files (meta : string → MutagenFile) (root : string)
    (files : list string) (t : Tables) (tracks_added : Z) : Tables * (Exn + Z) :=
  match files with
  | [] => (t, inr tracks_added)
  | file :: rest =>
      match scan_file meta root file t tracks_added with
      | (t', inr n) => scan_files meta root rest t' n
      | (t', inl exn) => (t', inl exn)
      end
  end.

(** The outer loop, over what [os.walk] yields. *)
Fixpoint scan_walk (meta : string → MutagenFile)
    (walk : list (string * list string)) (t : Tables) (tracks_added : Z)
    : Tables * (Exn + Z) :=
  match walk with
  | [] => (t, inr tracks_added)
  | (root, files) :: rest =>
      match scan_files meta root files t tracks_added with
      | (t', inr n) => scan_walk meta rest t' n
      | (t', inl exn) => (t', inl exn)
      end
  end.

(** [scan_music_library]: [fs] is what lies at [music_dir].  The commit
    is reached only when no statement raised. *)
Definition scan_music_library (fs : Os.Node) (meta : string → MutagenFile)
    (music_dir : string) (c : Conn) : Conn * (Exn + Z) :=
  match scan_walk meta (Os.walk music_dir fs) (view c) 0 with
  | (t', inr n) => (commit t', inr n)
  | (t', inl exn) => (mkConn t' (durable c), inl exn)
  end.

(** *** Queries *)

(** What is left of [s] once the continuation bytes at its front are
    dropped. *)
Fixpoint drop_continuation (s : string) : string :=
  match s with
  | EmptyString => EmptyString
  | String c s' =>
      let b := Ascii.nat_of_ascii c in
      if ((128 <=? b) && (b <=? 191))%nat then drop_continuation s' else s
  end.

(** What follows the character that starts with byte [c], as SQLite
    reads one character: a byte from [0xC0] on takes every continuation
    byte after it along. *)
Definition after_character (c : Ascii.ascii) (s : string) : string :=
  if (192 <=? Ascii.nat_of_ascii c)%nat then drop_continuation s else s.

(** A byte that continues a character, [10xxxxxx]. *)
Definition continuation (c : Ascii.ascii) : bool :=
  let b := Ascii.nat_of_ascii c in ((128 <=? b) && (b <=? 191))%nat.

(** SQLite's [LIKE]: [%] matches any run of characters, [_] any one
    character, and letters compare without regard to ASCII case.  The
    strings are UTF-8: [%] is tried at every byte, and [_] takes a whole
    character, which never starts with a continuation byte; a literal
    character of the pattern is compared byte by byte. *)
Fixpoint like (pattern s : string) : bool :=
  match pattern with
  | EmptyString => String.eqb s EmptyString
  | String "%"%char pattern' =>
      (fix rest_matches (s : string) : bool :=
         like pattern' s ||
         match s with
         | EmptyString => false
         | String _ s' => rest_matches s'
         end) s
  | String "_"%char pattern' =>
      match s with
      | EmptyString => false
      | String c s' => negb (continuation c) && like pattern' (after_character c s')
      end
  | String c pattern' =>
      match s with
      | EmptyString => false
      | String d s' =>
          Ascii.eqb (Py.lower_char c) (Py.lower_char d) && like pattern' s'
      end
  end.

(** [LIMIT ? OFFSET ?]: a negative limit means no limit, a negative
    offset means none. *)
Definition limit_offset {A} (limit offset : Z) (rows : list A) : list A :=
  let rows' := drop (Z.to_nat offset) rows in
  if decide (limit < 0) then rows' else take (Z.to_nat limit) rows'.

Definition to_track (r : TrackRow) : Track :=
  mkTrack (row_id r) (row_path r) (row_filename r) (row_artist r) (row_album r).

(** [get_tracks(limit, offset, search)]; [if search:] is false for
    [None] and for the empty string. *)
Definition get_tracks (c : Conn) (limit offset : Z) (search : option string)
    : list Track :=
  let selected :=
    match search with
    | None | Some EmptyString => tracks (view c)
    | Some term =>
        let search_param := ("%" +:+ term +:+ "%")%string in
        filter (λ r, like search_param (row_filename r)
                     || like search_param (row_artist r)
                     || like search_param (row_album r) = true)
               (tracks (view c))
    end in
  to_track <$> limit_offset limit offset selected.

(** *** Playlists *)

(** [create_playlist(name, tracks)].  The first INSERT fails on a name
    already present.  The connection never turns foreign keys on, so
    the [REFERENCES] clauses of [playlist_tracks] are not checked.  On
    success the method prints one line. *)
Definition create_playlist (name : string) (tracks : list Track) (c : Conn)
    : Conn * (Exn + string) :=
  let t := view c in
  if bool_decide (name ∈ map playlist_name (playlists t))
  then (c, inl IntegrityError)
  else
    let new_id := next_rowid (map playlist_id (playlists t)) in
    let t' := mkTables (Catalog.tracks t)
                       (playlists t ++ [mkPlaylistRow new_id name])
                       (playlist_tracks t ++
                        map (λ track, (new_id, track_id track)) tracks) in
    (commit t',
     inr ("Playlist '" +:+ name +:+ "' created with "
          +:+ pretty (length tracks) +:+ " tracks.")%string).

(** [list_playlists] *)
Definition list_playlists (c : Conn) : list (Z * string) :=
  map (λ p, (playlist_id p, playlist_name p)) (playlists (view c)).

(** *** Notions used to state what a scan does *)

(** [mutagen.File] gave no tags: it raised, or it returned [None]. *)
Definition unreadable (m : MutagenFile) : bool :=
  match m with
  | MutagenRaises | MutagenNone => true
  | MutagenTags _ => false
  end.

(** The [duration] extracted from [m] is one sqlite3 can bind. *)
Definition binds (m : MutagenFile) : bool :=
  match extract_metadata m with
  | (_, _, DurationInt _) => true
  | (_, _, DurationList _) => false
  end.

(** The two loops visit these (directory, file name) pairs, in order. *)
Definition visited (walk : list (string * list string)) : list (string * string) :=
  flat_map (λ rf, map (pair rf.1) rf.2) walk.

(** The two loops as one. *)
Fixpoint scan_pairs (meta : string → MutagenFile) (pairs : list (string * string))
    (t : Tables) (tracks_added : Z) : Tables * (Exn + Z) :=
  match pairs with
  | [] => (t, inr tracks_added)
  | (root, file) :: rest =>
      match scan_file meta root file t tracks_added with
      | (t', inr n) => scan_pairs meta rest t' n
      | (t', inl exn) => (t', inl exn)
      end
  end.

(** The full paths of the visited files with a supported extension. *)
Fixpoint audio_paths_of (pairs : list (string * string)) : list string :=
  match pairs with
  | [] => []
  | (root, file) :: rest =>
      if supported file then Py.path_join root file :: audio_paths_of rest
      else audio_paths_of rest
  end.

Definition audio_paths (walk : list (string * list string)) : list string :=
  audio_paths_of (visited walk).

(** The tables with more rows in [tracks]. *)
Definition add_track_rows (t : Tables) (news : list TrackRow) : Tables :=
  mkTables (tracks t ++ news) (playlists t) (playlist_tracks t).

(** A row whose artist, album and duration are what the [try] block
    extracts for its path. *)
Definition new_row (meta : string → MutagenFile) (r : TrackRow) : Prop :=
  extract_metadata (meta (row_path r))
  = (row_artist r, row_album r, DurationInt (row_duration r)).

(** The row the scan writes for a file without readable tags. *)
Definition default_row (id : Z) (path filename : string) : TrackRow :=
  mkTrackRow id path filename "Unknown Artist" "Unknown Album" 0.

End Catalog.

(** ** The playback controller *)

Module Player.

(** A handle on a spawned [mpv] process. *)
Definition Proc := nat.

Inductive Signal := SIGSTOP | SIGCONT.

(** What one command does to the outside world, in order. *)
Inductive Event :=
| EPrint (msg : string)
| ESpawn (argv : list string) (p : Proc)
| ESpawnFailed (argv : list string)
| ESignal (p : Proc) (sig : Signal)
| ETerminate (p : Proc)
| EWait (p : Proc).

(** Exceptions that leave a method. *)
Inductive Exn := IndexError | SignalError.

(** What the outside world answers during one command. *)
Record Env := mkEnv {
  popen_result : Proc + string;   (* a new process, or the error text *)
  terminate_raises : bool;
  wait_raises : bool;
  send_signal_raises : bool;
  rand : nat → nat
}.

(** The playback fields of [self]. *)
Record State := mkState {
  current_playlist : list Track;
  current_track_index : Z;
  is_playing : bool;
  is_paused : bool;
  player_process : option Proc
}.

(** [__init__] *)
Definition init : State := mkState [] 0 false false None.

Record Result := mkResult {
  trace : list Event;
  raised : option Exn;
  state : State
}.

Definition set_queue (q : list Track) (i : Z) (s : State) : State :=
  mkState q i (is_playing s) (is_paused s) (player_process s).

Definition set_index (i : Z) (s : State) : State :=
  mkState (current_playlist s) i (is_playing s) (is_paused s) (player_process s).

Definition set_paused (b : bool) (s : State) : State :=
  mkState (current_playlist s) (current_track_index s) (is_playing s) b
          (player_process s).

Definition set_session (p : option Proc) (playing paused : bool) (s : State) : State :=
  mkState (current_playlist s) (current_track_index s) playing paused p.

(** [stop]: the [try] swallows whatever [terminate] or [wait] raise;
    [wait] is reached only when [terminate] returned, and its raising
    changes nothing that follows.  This is what the method does when
    [wait] comes back; [Blocking] below says when it does not. *)
Definition stop (e : Env) (s : State) : Result :=
  match player_process s with
  | Some p =>
      let calls :=
        if terminate_raises e then [ETerminate p]
        else [ETerminate p; EWait p] in
      mkResult (calls ++ [EPrint "Playback stopped."]) None
               (set_session None false false s)
  | None => mkResult [] None s
  end.

(** The command line handed to [subprocess.Popen]. *)
Definition mpv_argv (t : Track) : list string :=
  ["mpv"; track_path t; "--no-video"; "--terminal=no"]%string.

(** The first statement of [play].  [if tracks:] is Python truthiness,
    so both [None] and the empty list skip the assignment. *)
Definition assign_tracks (tracks : option (list Track)) (s : State) : State :=
  match tracks with
  | Some (t :: ts) => set_queue (t :: ts) 0 s
  | Some [] | None => s
  end.

(** [play] *)
Definition play (tracks : option (list Track)) (e : Env) (s : State) : Result :=
  let s1 := assign_tracks tracks s in
  match current_playlist s1 with
  | [] => mkResult [EPrint "No tracks to play."] None s1
  | _ :: _ =>
      let r := stop e s1 in
      let s2 := state r in
      match Py.getitem (current_playlist s2) (current_track_index s2) with
      | None => mkResult (trace r) (Some IndexError) s2
      | Some current_track =>
          match popen_result e with
          | inl p =>
              mkResult
                (trace r ++
                 [ESpawn (mpv_argv current_track) p;
                  EPrint ("Now playing: " +:+ track_filename current_track
                          +:+ " - " +:+ track_artist current_track)])
                None
                (set_session (Some p) true (is_paused s2) s2)
          | inr msg =>
              mkResult
                (trace r ++
                 [ESpawnFailed (mpv_argv current_track);
                  EPrint ("Error playing track: " +:+ msg)])
                None s2
          end
      end
  end.

(** [pause] *)
Definition pause (e : Env) (s : State) : Result :=
  match player_process s with
  | Some p =>
      if send_signal_raises e
      then mkResult [ESignal p SIGSTOP] (Some SignalError) s
      else mkResult [ESignal p SIGSTOP; EPrint "Playback paused."] None
                    (set_paused true s)
  | None => mkResult [] None s
  end.

(** [resume] *)
Definition resume (e : Env) (s : State) : Result :=
  match player_process s, is_paused s with
  | Some p, true =>
      if send_signal_raises e
      then mkResult [ESignal p SIGCONT] (Some SignalError) s
      else mkResult [ESignal p SIGCONT; EPrint "Playback resumed."] None
                    (set_paused false s)
  | _, _ => mkResult [] None s
  end.

Definition len (s : State) : Z := Z.of_nat (length (current_playlist s)).

(** [next_track]; [%] is Python's modulo, which for a positive modulus
    is [Z.modulo]. *)
Definition next_track (e : Env) (s : State) : Result :=
  match current_playlist s with
  | [] => mkResult [] None s
  | _ :: _ =>
      play None e (set_index ((current_track_index s + 1) `mod` len s) s)
  end.

(** [previous_track] *)
Definition previous_track (e : Env) (s : State) : Result :=
  match current_playlist s with
  | [] => mkResult [] None s
  | _ :: _ =>
      play None e (set_index ((current_track_index s - 1) `mod` len s) s)
  end.

(** [shuffle_playlist].  [random.shuffle] works in place, on the list
    object that was handed to [play]. *)
Definition shuffle_playlist (e : Env) (s : State) : Result :=
  match current_playlist s with
  | [] => mkResult [] None s
  | _ :: _ =>
      mkResult [EPrint "Playlist shuffled."] None
               (set_queue (Py.shuffle (rand e) (current_playlist s))
                          (current_track_index s) s)
  end.

(** The commands of the controller and runs of them. *)
Inductive Command :=
| Play (tracks : option (list Track))
| Pause | Resume | Stop | Next | Previous | Shuffle.

Definition exec (c : Command) : Env → State → Result :=
  match c with
  | Play tracks => play tracks
  | Pause => pause
  | Resume => resume
  | Stop => stop
  | Next => next_track
  | Previous => previous_track
  | Shuffle => shuffle_playlist
  end.

(** The state after a script of commands, each with the answers the
    outside world gives during it.  A command that raises leaves the
    state it had reached, as the shell's [except Exception] does. *)
Fixpoint run (script : list (Command * Env)) (s : State) : State :=
  match script with
  | [] => s
  | (c, e) :: rest => run rest (state (exec c e s))
  end.

(** [n] times the same command, with the environments in turn. *)
Definition repeat_cmd (c : Command) (envs : list Env) (s : State) : State :=
  run (map (λ e, (c, e)) envs) s.

(** The session invariant: a process handle is held exactly when
    [is_playing] is set, and [is_paused] is set only then. *)
Definition consistent (s : State) : bool :=
  match player_process s with
  | Some _ => is_playing s
  | None => negb (is_playing s) && negb (is_paused s)
  end.

End Player.

(** ** Calls that do not come back

    [Popen.wait()] is called without a timeout.  [terminate] sends
    SIGTERM, which a process stopped by SIGSTOP does not act on before
    it is continued: after a [pause] that reached a process still
    running, the [wait] of [stop] never returns, and neither does the
    method that called [stop].  [Player] says what a call does when it
    comes back; [returns] says whether it does.  [running] tells whether
    the process behind the handle still exists when the command is
    given: it may have ended by itself, and then [wait] returns at
    once. *)

Module Blocking.
Import Player.

(** [stop] reaches [wait] with a process that is stopped and has not
    ended. *)
Definition wait_blocks (running : bool) (e : Env) (s : State) : bool :=
  match player_process s with
  | Some _ =>
      is_paused s && running && negb (terminate_raises e) && negb (wait_raises e)
  | None => false
  end.

(** [play] calls [stop] once the queue is known not to be empty. *)
Definition play_returns (running : bool) (tracks : option (list Track))
    (e : Env) (s : State) : bool :=
  let s1 := assign_tracks tracks s in
  match current_playlist s1 with
  | [] => true
  | _ :: _ => negb (wait_blocks running e s1)
  end.

Definition returns (running : bool) (c : Command) (e : Env) (s : State) : bool :=
  match c with
  | Stop => negb (wait_blocks running e s)
  | Play tracks => play_returns running tracks e s
  | Next =>
      match current_playlist s with
      | [] => true
      | _ :: _ =>
          play_returns running None e
            (set_index ((current_track_index s + 1) `mod` len s) s)
      end
  | Previous =>
      match current_playlist s with
      | [] => true
      | _ :: _ =>
          play_returns running None e
            (set_index ((current_track_index s - 1) `mod` len s) s)
      end
  | Pause | Resume | Shuffle => true
  end.

End Blocking.

(** ** Concrete tracks, answers of the outside world and states *)

Module Sample.
Import Player.

Definition trackA : Track := mkTrack 1 "/music/a.mp3" "a.mp3" "Ann" "First".
Definition trackB : Track := mkTrack 2 "/music/b.mp3" "b.mp3" "Bob" "Second".
Definition trackC : Track := mkTrack 3 "/music/c.mp3" "c.mp3" "Cy" "Third".

(** Every call succeeds; [Popen] hands out process 7. *)
Definition calm : Env := mkEnv (inl 7%nat) false false false (λ i, i).

(** [Popen] and [terminate] raise. *)
Definition hostile : Env :=
  mkEnv (inr "No such file or directory: 'mpv'"%string) true true true (λ i, 0%nat).

(** Playing B out of [A; B; C]. *)
Definition playing_B : State :=
  run [(Play (Some [trackA; trackB; trackC]), calm); (Next, calm)] init.

(** Stopped, with [A; B; C] still queued and the cursor on B. *)
Definition stopped_on_B : State := run [(Stop, calm)] playing_B.

(** A music directory with three tagged audio files, one audio file
    that cannot be read, a text file, and a subdirectory that cannot be
    listed. *)
Definition library : Os.Node :=
  Os.Dir "Music"
    (Some [Os.File "a.mp3"; Os.File "b.FLAC"; Os.File "c.ogg";
           Os.File "broken.mp3"; Os.File "notes.txt"; Os.Dir "private" None]).

Definition tags (artist album : string) : gmap string (list string) :=
  {[ "artist"%string := [artist]; "album"%string := [album] ]}.

Definition library_meta (path : string) : Catalog.MutagenFile :=
  if String.eqb path "/home/u/Music/a.mp3" then Catalog.MutagenTags (tags "Ann" "First")
  else if String.eqb path "/home/u/Music/b.FLAC" then Catalog.MutagenTags (tags "Bob" "Second")
  else if String.eqb path "/home/u/Music/c.ogg" then Catalog.MutagenTags (tags "Cy" "Third")
  else Catalog.MutagenRaises.

(** The same library when the tags of [b.FLAC] have a ['length'] entry. *)
Definition library_meta_with_length (path : string) : Catalog.MutagenFile :=
  if String.eqb path "/home/u/Music/b.FLAC"
  then Catalog.MutagenTags (<["length"%string := ["215"%string]]> (tags "Bob" "Second"))
  else library_meta path.

(** A file name that is not UTF-8: the single byte [0xFF], then
    [.mp3].  [os.walk] hands it out as ['\udcff.mp3']. *)
Definition undecodable_name : string := String (Ascii.ascii_of_nat 255) ".mp3".

Definition undecodable_path : string := "/home/u/Music/" +:+ undecodable_name.

(** A music directory with two audio files, the second under that
    name. *)
Definition undecodable_library : Os.Node :=
  Os.Dir "Music" (Some [Os.File "broken.mp3"; Os.File undecodable_name]).

(** A number whose predecessor is [2 ^ 63]. *)
Definition huge : Z := 9223372036854775809.

(** An [int] for the words used below. *)
Definition int_of_word (word : string) : option Z :=
  if String.eqb word "9223372036854775809" then Some huge
  else if String.eqb word "0" then Some 0
  else if String.eqb word "1" then Some 1
  else if String.eqb word "3" then Some 3
  else if String.eqb word "7" then Some 7
  else if String.eqb word "-2" then Some (-2)
  else None.

(** A track that is in no catalog. *)
Definition ghost : Track := mkTrack 99 "/nowhere/x.mp3" "x.mp3" "Nobody" "Nothing".

End Sample.

(** ** The command loop

    [interactive_shell], one pass of its loop at a time.  A pass is
    given the words of the line, that is [input().strip().split()], and
    what the outside world answers during it.  [int], Python's
    conversion of a word to an integer ([None] where it raises
    [ValueError]), is an input of the model as well. *)

Module Shell.
Import Player.

(** The exceptions the loop's [except Exception] can meet. *)
Inductive Raised :=
| ValueError                        (* int() of a word that is no number *)
| IndexError                        (* [0] of an empty result, or from play *)
| OverflowError                     (* an offset outside SQLite's 64 bits *)
| SignalError                       (* send_signal failed *)
| DatabaseError (e : Catalog.Exn).

(** What a pass shows or does: an event of the controller (a printed
    line included), or the line [print(f"Error: {e}")] for a caught
    exception, whose text is left to the exception. *)
Inductive Output :=
| Out (ev : Event)
| Failed (e : Raised).

Record World := mkWorld {
  env : Env;                                  (* for the player *)
  tree : Os.Node;                             (* what lies at music_dir *)
  metadata : string → Catalog.MutagenFile
}.

(** [self]: the connection, the music directory and the playback
    fields. *)
Record Shell := mkShell {
  conn : Catalog.Conn;
  music_dir : string;
  player : State
}.

(** [__init__] over a database holding [db], with [_create_database]
    leaving existing tables as they are. *)
Definition start (music_dir : string) (db : Catalog.Tables) : Shell :=
  mkShell (Catalog.commit db) music_dir init.

Definition print (line : string) : Output := Out (EPrint line).

(** [f"{track[0]}: {track[2]} - {track[3]}"] *)
Definition track_line (t : Track) : string :=
  pretty (track_id t) +:+ ": " +:+ track_filename t +:+ " - " +:+ track_artist t.

(** [f"{playlist[0]}: {playlist[1]}"] *)
Definition playlist_line (p : Z * string) : string :=
  pretty p.1 +:+ ": " +:+ p.2.

(** [' '.join(words)] *)
Fixpoint join_words (words : list string) : string :=
  match words with
  | [] => ""
  | [w] => w
  | w :: rest => w +:+ " " +:+ join_words rest
  end.

Definition newline : string := String (Ascii.ascii_of_nat 10) "".

Definition help_text : string :=
  newline +:+ "Available commands:" +:+ newline
  +:+ "  scan          - Scan music library" +:+ newline
  +:+ "  list          - List tracks" +:+ newline
  +:+ "  play [id]     - Play tracks (optional: start from track ID)" +:+ newline
  +:+ "  pause         - Pause playback" +:+ newline
  +:+ "  resume        - Resume playback" +:+ newline
  +:+ "  stop          - Stop playback" +:+ newline
  +:+ "  next          - Next track" +:+ newline
  +:+ "  prev          - Previous track" +:+ newline
  +:+ "  shuffle       - Shuffle playlist" +:+ newline
  +:+ "  search [term] - Search tracks" +:+ newline
  +:+ "  playlists     - List playlists" +:+ newline
  +:+ "  help          - Show this help" +:+ newline
  +:+ "  exit          - Exit application" +:+ newline.

Definition player_raised (e : Player.Exn) : Raised :=
  match e with
  | Player.IndexError => IndexError
  | Player.SignalError => SignalError
  end.

(** A method of the controller called from the loop, once it has come
    back: its events, then the error line if it raised. *)
Definition call (r : Result) (sh : Shell) : Shell * list Output * bool :=
  (mkShell (conn sh) (music_dir sh) (state r),
   (Out <$> trace r)
   ++ match raised r with
      | Some e => [Failed (player_raised e)]
      | None => []
      end,
   true).

(** SQLite integers have 64 bits; binding another raises. *)
Definition fits_sqlite (n : Z) : Prop := - 2 ^ 63 ≤ n < 2 ^ 63.

(** One pass of the loop, from the split line on.  The last component
    says whether the loop goes on ([exit] breaks it). *)
Definition dispatch (int : string → option Z) (w : World) (command : list string)
    (sh : Shell) : Shell * list Output * bool :=
  match command with
  | [] => (sh, [], true)
  | word :: args =>
      let cmd := Py.lower word in
      if String.eqb cmd "scan" then
        match Catalog.scan_music_library (tree w) (metadata w) (music_dir sh) (conn sh) with
        | (c, inr n) =>
            (mkShell c (music_dir sh) (player sh),
             [print ("Added " +:+ pretty n +:+ " new tracks to library")], true)
        | (c, inl e) =>
            (mkShell c (music_dir sh) (player sh), [Failed (DatabaseError e)], true)
        end
      else if String.eqb cmd "list" then
        (sh, (λ t, print (track_line t)) <$> Catalog.get_tracks (conn sh) 20 0 None, true)
      else if String.eqb cmd "play" then
        match args with
        | number :: _ =>
            match int number with
            | None => (sh, [Failed ValueError], true)
            | Some n =>
                if decide (fits_sqlite (n - 1)) then
                  match Py.getitem (Catalog.get_tracks (conn sh) 1 (n - 1) None) 0 with
                  | None => (sh, [Failed IndexError], true)
                  | Some t => call (play (Some [t]) (env w) (player sh)) sh
                  end
                else (sh, [Failed OverflowError], true)
            end
        | [] =>
            call (play (Some (Catalog.get_tracks (conn sh) 10 0 None))
                       (env w) (player sh)) sh
        end
      else if String.eqb cmd "pause" then call (pause (env w) (player sh)) sh
      else if String.eqb cmd "resume" then call (resume (env w) (player sh)) sh
      else if String.eqb cmd "stop" then call (stop (env w) (player sh)) sh
      else if String.eqb cmd "next" then call (next_track (env w) (player sh)) sh
      else if String.eqb cmd "prev" then call (previous_track (env w) (player sh)) sh
      else if String.eqb cmd "shuffle" then call (shuffle_playlist (env w) (player sh)) sh
      else if String.eqb cmd "search" then
        match args with
        | _ :: _ =>
            (sh,
             (λ t, print (track_line t))
               <$> Catalog.get_tracks (conn sh) 50 0 (Some (join_words args)),
             true)
        | [] => (sh, [], true)
        end
      else if String.eqb cmd "playlists" then
        (sh, (λ p, print (playlist_line p)) <$> Catalog.list_playlists (conn sh), true)
      else if String.eqb cmd "help" then (sh, [print help_text], true)
      else if String.eqb cmd "exit" then (sh, [], false)
      else (sh, [], true)
  end.

(** The loop over the lines entered, up to [exit] or to the last line
    given. *)
Fixpoint loop (int : string → option Z) (script : list (World * list string))
    (sh : Shell) : Shell * list Output :=
  match script with
  | [] => (sh, [])
  | (w, command) :: rest =>
      match dispatch int w command sh with
      | (sh', out, true) =>
          let '(sh'', out') := loop int rest sh' in (sh'', out ++ out')
      | (sh', out, false) => (sh', out)
      end
  end.

(** [interactive_shell]: the banner, then the loop. *)
Definition interactive_shell (int : string → option Z)
    (script : list (World * list string)) (sh : Shell) : Shell * list Output :=
  let '(sh', out) := loop int script sh in
  (sh', print "Shell Music Player" :: print "Type 'help' for available commands" :: out).

(** Every queued track is a row of the catalog. *)
Definition queue_in_catalog (sh : Shell) : Prop :=
  ∀ t, t ∈ current_playlist (player sh) →
       ∃ row, row ∈ Catalog.tracks (Catalog.view (conn sh)) ∧ t = Catalog.to_track row.

End Shell.

(** ** Notions used to state what runs of the controller do *)

Module Session.
Import Player.

(** The cursor is an index of the queue whenever there is one. *)
Definition cursor_valid (s : State) : bool :=
  match current_playlist s with
  | [] => true
  | _ :: _ => bool_decide (0 ≤ current_track_index s < len s)
  end.

(** Everything a script of commands does to the outside, in order. *)
Fixpoint run_trace (script : list (Command * Env)) (s : State) : list Event :=
  match script with
  | [] => []
  | (c, e) :: rest => trace (exec c e s) ++ run_trace rest (state (exec c e s))
  end.

(** The processes started and not yet asked to terminate, after one
    more event. *)
Definition alive_after (procs : list Proc) (ev : Event) : list Proc :=
  match ev with
  | ESpawn _ p => p :: procs
  | ETerminate p => filter (λ q, q ≠ p) procs
  | _ => procs
  end.

Definition alive (events : list Event) (procs : list Proc) : list Proc :=
  foldl alive_after procs events.

End Session.

(** ** Notions used to state what the command loop keeps *)

Module ShellInvariant.
Import Player Session Shell.

(** The words the loop acts on. *)
Definition command_words : list string :=
  ["scan"; "list"; "play"; "pause"; "resume"; "stop"; "next"; "prev";
   "shuffle"; "search"; "playlists"; "help"; "exit"]%string.

(** What a pass keeps: the session invariant, the cursor in range, the
    queue inside the catalog, the playlist tables and the music
    directory; the tracks table only grows at its end. *)
Definition kept (sh sh' : Shell) : Prop :=
  consistent (player sh') = true
  ∧ cursor_valid (player sh') = true
  ∧ queue_in_catalog sh'
  ∧ music_dir sh' = music_dir sh
  ∧ Catalog.playlists (Catalog.view (conn sh')) = Catalog.playlists (Catalog.view (conn sh))
  ∧ Catalog.playlist_tracks (Catalog.view (conn sh'))
    = Catalog.playlist_tracks (Catalog.view (conn sh))
  ∧ ∃ news, Catalog.tracks (Catalog.view (conn sh'))
            = Catalog.tracks (Catalog.view (conn sh)) ++ news.

End ShellInvariant.

(** ** Notions used to state which rows a scan adds *)

Module ScanRows.
Import Catalog.

(** [row] is for a visited file with a supported extension whose path
    is not among those of [t], and is named after the file. *)
Definition row_of_visited (pairs : list (string * string)) (t : Tables)
    (row : TrackRow) : Prop :=
  ∃ root file,
    (root, file) ∈ pairs ∧ supported file = true
    ∧ row_path row = Py.path_join root file ∧ row_filename row = file
    ∧ (row_path row ∉ paths t).

End ScanRows.

(** ** Notions used to state what a search returns *)

Module Search.



End Search.

(** * Properties of the playback controller *)

Section PlayerFacts.
Import Player.

(** ** Shuffling permutes *)

Lemma insert_head_perm {A} (l : list A) (j : nat) (a b : A) :
  l !! j = Some b → b :: <[j := a]> l ≡ₚ a :: l.
Proof.
  revert j. induction l as [|h t IH]; intros [|j] Hj; simplify_eq/=.
  - apply perm_swap.
  - rewrite perm_swap, (IH _ Hj). apply perm_swap.
Qed.

Lemma swap_perm {A} (x : list A) (i j : nat) : Py.swap x i j ≡ₚ x.
Proof.
  unfold Py.swap.
  destruct (x !! i) as [a|] eqn:Hi; [|done].
  destruct (x !! j) as [b|] eqn:Hj; [|done].
  destruct (decide (i = j)) as [->|Hne].
  - simplify_eq. by rewrite !list_insert_id by (by rewrite ?list_insert_id).
  - apply (inj (cons b)).
    rewrite insert_head_perm by (by rewrite list_lookup_insert_ne).
    by apply insert_head_perm.
Qed.

Lemma shuffle_down_perm {A} rand (i : nat) (x : list A) :
  Py.shuffle_down rand i x ≡ₚ x.
Proof.
  revert x. induction i as [|i IH]; intros x; simpl; [done|].
  by rewrite IH, swap_perm.
Qed.

Lemma shuffle_perm {A} rand (x : list A) : Py.shuffle rand x ≡ₚ x.
Proof. apply shuffle_down_perm. Qed.

(** ** What [play] leaves alone *)

Lemma play_queue tracks e s :
  current_playlist (state (play tracks e s))
  = current_playlist (assign_tracks tracks s).
Proof.
  unfold play, assign_tracks, stop.
  destruct tracks as [[|t ts]|]; simpl;
    destruct s as [[|q qs] i pl pa [p|]]; simpl; try done;
    repeat (case_match; simpl; try done).
Qed.

Lemma play_index tracks e s :
  current_track_index (state (play tracks e s))
  = current_track_index (assign_tracks tracks s).
Proof.
  unfold play, assign_tracks, stop.
  destruct tracks as [[|t ts]|]; simpl;
    destruct s as [[|q qs] i pl pa [p|]]; simpl; try done;
    repeat (case_match; simpl; try done).
Qed.

(** ** The session invariant *)

Lemma exec_consistent c e s :
  consistent s = true → consistent (state (exec c e s)) = true.
Proof.
  unfold consistent.
  destruct c as [[[|t ts]|]| | | | | |]; simpl;
    unfold play, pause, resume, stop, next_track, previous_track,
           shuffle_playlist, play, stop;
    destruct s as [[|q qs] i pl pa [p|]]; simpl; intros H; try done;
    repeat (case_match; simpl in *; simplify_eq; try done).
Qed.

Lemma run_consistent script s :
  consistent s = true → consistent (run script s) = true.
Proof.
  revert s. induction script as [|[c e] rest IH]; intros s H; simpl; [done|].
  by apply IH, exec_consistent.
Qed.

Lemma consistent_paused s :
  consistent s = true → is_paused s = true → is_playing s = true.
Proof.
  unfold consistent. destruct s as [q i [] [] [p|]]; simpl; done.
Qed.

End PlayerFacts.

Section QueueWalk.
Import Player.

Lemma next_track_index e s :
  current_playlist s ≠ [] →
  current_track_index (state (next_track e s))
  = (current_track_index s + 1) `mod` len s
  ∧ current_playlist (state (next_track e s)) = current_playlist s.
Proof.
  intros Hq. unfold next_track.
  destruct (current_playlist s) as [|q qs] eqn:E; [done|].
  by rewrite play_index, play_queue.
Qed.

Lemma previous_track_index e s :
  current_playlist s ≠ [] →
  current_track_index (state (previous_track e s))
  = (current_track_index s - 1) `mod` len s
  ∧ current_playlist (state (previous_track e s)) = current_playlist s.
Proof.
  intros Hq. unfold previous_track.
  destruct (current_playlist s) as [|q qs] eqn:E; [done|].
  by rewrite play_index, play_queue.
Qed.

Lemma len_pos s : current_playlist s ≠ [] → 0 < len s.
Proof. unfold len. destruct (current_playlist s); simpl; [done|lia]. Qed.

Lemma repeat_next envs s :
  current_playlist s ≠ [] →
  0 ≤ current_track_index s < len s →
  current_track_index (repeat_cmd Next envs s)
  = (current_track_index s + Z.of_nat (length envs)) `mod` len s.
Proof.
  unfold repeat_cmd.
  revert s. induction envs as [|e envs IH]; intros s Hq Hc; simpl.
  - rewrite Z.add_0_r. symmetry. by apply Z.mod_small.
  - destruct (next_track_index e s Hq) as [Hi Hl].
    pose proof (len_pos s Hq) as Hpos.
    assert (len (state (next_track e s)) = len s) as Hlen
      by (unfold len; by rewrite Hl).
    rewrite IH, Hlen, Hi.
    + rewrite Zplus_mod_idemp_l. f_equal. lia.
    + by rewrite Hl.
    + rewrite Hlen, Hi. apply Z.mod_pos_bound. lia.
Qed.

Lemma repeat_previous envs s :
  current_playlist s ≠ [] →
  0 ≤ current_track_index s < len s →
  current_track_index (repeat_cmd Previous envs s)
  = (current_track_index s - Z.of_nat (length envs)) `mod` len s.
Proof.
  unfold repeat_cmd.
  revert s. induction envs as [|e envs IH]; intros s Hq Hc; simpl.
  - rewrite Z.sub_0_r. symmetry. by apply Z.mod_small.
  - destruct (previous_track_index e s Hq) as [Hi Hl].
    pose proof (len_pos s Hq) as Hpos.
    assert (len (state (previous_track e s)) = len s) as Hlen
      by (unfold len; by rewrite Hl).
    rewrite IH, Hlen, Hi.
    + rewrite Zminus_mod_idemp_l. f_equal. lia.
    + by rewrite Hl.
    + rewrite Hlen, Hi. apply Z.mod_pos_bound. lia.
Qed.

End QueueWalk.

(** * The controller's claims *)

Section PlayerClaims.
Import Player.

(** C1, as the code has it.  [play] replaces the queue by the supplied
    list and resets the cursor to 0 when that list is non-empty; and
    whenever the queue [play] ends with is empty, all it did was print
    the empty-queue message: no process was spawned, no exception left
    the method, and the controller state is the one it started from. *)
Theorem play_replaces_queue_when_nonempty
    (tracks : option (list Track)) (e : Env) (s : State) :
  let r := play tracks e s in
  (∀ t ts, tracks = Some (t :: ts) →
     current_playlist (state r) = t :: ts ∧ current_track_index (state r) = 0)
  ∧ (current_playlist (state r) = [] →
     r = mkResult [EPrint "No tracks to play."] None s).
Proof.
  intros r. subst r. split.
  - intros t ts ->. by rewrite play_queue, play_index.
  - intros Hempty. rewrite play_queue in Hempty. unfold play.
    destruct tracks as [[|t ts]|]; simpl in *; try done; by rewrite Hempty.
Qed.

Lemma play_replaces_queue_when_nonempty_witness :
  let r := play (Some [Sample.trackA; Sample.trackB]) Sample.hostile Sample.playing_B in
  (current_playlist (state r) = [Sample.trackA; Sample.trackB]
   ∧ current_track_index (state r) = 0)
  ∧ current_playlist (state (play (Some []) Sample.calm init)) = []
  ∧ play (Some []) Sample.calm init
    = mkResult [EPrint "No tracks to play."] None init.
Proof.
  intros r. split; [|split; [reflexivity|]].
  - destruct (play_replaces_queue_when_nonempty
                (Some [Sample.trackA; Sample.trackB]) Sample.hostile Sample.playing_B)
      as [Hreplace _].
    apply (Hreplace Sample.trackA [Sample.trackB]). reflexivity.
  - destruct (play_replaces_queue_when_nonempty (Some []) Sample.calm init)
      as [_ Hempty].
    apply Hempty. reflexivity.
Defined.

(** C1 as stated fails: an empty list handed to [play] while tracks are
    queued does not replace the queue, does not reset the cursor, and a
    process is spawned for the track under the cursor. *)
Lemma play_empty_list_keeps_queue :
  let r := play (Some []) Sample.calm Sample.stopped_on_B in
  ¬ (current_playlist (state r) = [] ∧ current_track_index (state r) = 0)
  ∧ trace r ≠ [EPrint "No tracks to play."]
  ∧ ESpawn (mpv_argv Sample.trackB) 7%nat ∈ trace r.
Proof.
  vm_compute. split; [|split].
  - intros [H _]. discriminate H.
  - discriminate.
  - apply list_elem_of_here.
Qed.

(** C3.  After any sequence of play, pause, resume, stop, next,
    previous and shuffle from the initial state, whatever the outside
    world answers, [is_paused] implies [is_playing]. *)
Theorem paused_implies_playing (script : list (Command * Env)) :
  is_paused (run script init) = true → is_playing (run script init) = true.
Proof.
  apply consistent_paused, run_consistent. reflexivity.
Qed.

Lemma paused_implies_playing_witness :
  let script := [(Play (Some [Sample.trackA]), Sample.calm); (Pause, Sample.calm)] in
  is_paused (run script init) = true ∧ is_playing (run script init) = true.
Proof.
  split; [reflexivity|].
  apply (paused_implies_playing
           [(Play (Some [Sample.trackA]), Sample.calm); (Pause, Sample.calm)]).
  reflexivity.
Defined.

(** C6.  On a queue of [N > 0] tracks with the cursor [c] in
    [0 .. N-1]: [next_track] moves the cursor to [(c + 1) mod N], which
    is 0 from the last index; [previous_track] moves it to
    [(c - 1) mod N], which is [N - 1] from 0; [N] calls of either bring
    it back to [c].  On an empty queue both do nothing. *)
Theorem next_previous_wrap_around (s : State) (envs : list Env) (e : Env) :
  current_playlist s ≠ [] →
  0 ≤ current_track_index s < len s →
  length envs = length (current_playlist s) →
  let c := current_track_index s in
  let idle := set_queue [] c s in
  current_track_index (state (next_track e s)) = (c + 1) `mod` len s
  ∧ current_track_index (state (next_track e s))
    = (if decide (c = len s - 1) then 0 else c + 1)
  ∧ current_track_index (state (previous_track e s)) = (c - 1) `mod` len s
  ∧ current_track_index (state (previous_track e s))
    = (if decide (c = 0) then len s - 1 else c - 1)
  ∧ current_track_index (repeat_cmd Next envs s) = c
  ∧ current_track_index (repeat_cmd Previous envs s) = c
  ∧ next_track e idle = mkResult [] None idle
  ∧ previous_track e idle = mkResult [] None idle.
Proof.
  intros Hq Hc Hn c idle.
  destruct (next_track_index e s Hq) as [Hnext _].
  destruct (previous_track_index e s Hq) as [Hprev _].
  fold c in Hnext, Hprev, Hc.
  assert (Z.of_nat (length envs) = len s) as Hlen by (unfold len; lia).
  repeat split; try done.
  - rewrite Hnext. case_decide as Hlast.
    + rewrite Hlast. replace (len s - 1 + 1) with (1 * len s) by lia.
      apply Z.mod_mul. lia.
    + apply Z.mod_small. lia.
  - rewrite Hprev. case_decide as Hfirst.
    + rewrite Hfirst. replace (0 - 1) with (len s - 1 + (-1) * len s) by lia.
      rewrite Z.mod_add by lia. apply Z.mod_small. lia.
    + apply Z.mod_small. lia.
  - rewrite repeat_next, Hlen by done. fold c.
    replace (c + len s) with (c + 1 * len s) by lia.
    rewrite Z.mod_add by lia. apply Z.mod_small. lia.
  - rewrite repeat_previous, Hlen by done. fold c.
    replace (c - len s) with (c + (-1) * len s) by lia.
    rewrite Z.mod_add by lia. apply Z.mod_small. lia.
Qed.

Lemma next_previous_wrap_around_witness :
  current_track_index Sample.playing_B = 1
  ∧ current_track_index
      (repeat_cmd Next [Sample.calm; Sample.hostile; Sample.calm] Sample.playing_B) = 1
  ∧ current_track_index
      (repeat_cmd Previous [Sample.calm; Sample.hostile; Sample.calm] Sample.playing_B) = 1.
Proof.
  split; [reflexivity|].
  assert (current_playlist Sample.playing_B ≠ []) as Hq by (vm_compute; discriminate).
  assert (0 ≤ current_track_index Sample.playing_B < len Sample.playing_B) as Hc
    by (vm_compute; split; [discriminate|reflexivity]).
  pose proof (next_previous_wrap_around Sample.playing_B
                [Sample.calm; Sample.hostile; Sample.calm] Sample.calm
                Hq Hc eq_refl) as H.
  simpl in H. destruct H as (_ & _ & _ & _ & Hn & Hp & _). by split.
Defined.

(** C7, where the code departs from it.  After [play] and [pause],
    with the player still running, [stop] does not come back: SIGTERM
    is sent to a stopped process and [wait] blocks.  The handle is
    still held and the session still paused; [resume] first, and [stop]
    returns. *)
Theorem stop_blocks_after_pause :
  let s := run [(Play (Some [Sample.trackA]), Sample.calm); (Pause, Sample.calm)] init in
  let resumed := run [(Resume, Sample.calm)] s in
  player_process s = Some 7%nat
  ∧ is_playing s = true
  ∧ is_paused s = true
  ∧ Blocking.wait_blocks true Sample.calm s = true
  ∧ Blocking.returns true Stop Sample.calm s = false
  ∧ Blocking.returns true Stop Sample.calm resumed = true.
Proof. repeat split. Qed.

(** What [stop] does otherwise.  In every state the controller can
    reach, a [stop] that comes back has raised nothing and ends with no
    process handle and both flags cleared, also when [terminate] or
    [wait] raise; a second [stop] comes back and changes nothing; and
    [stop] without a live process does nothing at all.  It comes back
    whenever the session is not paused, the process has ended, or
    [terminate] or [wait] raise. *)
Lemma stop_ends_idle (script : list (Command * Env)) (e e' : Env) (running : bool) :
  let s := run script init in
  let r := stop e s in
  let idle := set_session None (is_playing s) (is_paused s) s in
  (Blocking.returns running Stop e s = true →
   raised r = None
   ∧ player_process (state r) = None
   ∧ is_playing (state r) = false
   ∧ is_paused (state r) = false
   ∧ current_playlist (state r) = current_playlist s
   ∧ current_track_index (state r) = current_track_index s
   ∧ Blocking.returns running Stop e' (state r) = true
   ∧ stop e' (state r) = mkResult [] None (state r))
  ∧ stop e idle = mkResult [] None idle
  ∧ (is_paused s && running && negb (terminate_raises e) && negb (wait_raises e) = false →
     Blocking.returns running Stop e s = true).
Proof.
  intros s r idle.
  pose proof (run_consistent script init eq_refl) as Hc. fold s in Hc.
  subst r idle. unfold stop, consistent, Blocking.returns, Blocking.wait_blocks in *.
  destruct s as [q i pl pa [p|]]; simpl in *.
  - split; [done|]. split; [done|]. by intros ->.
  - by destruct pl, pa.
Qed.

(** C9.  [shuffle_playlist] replaces the queue by a permutation of
    itself and leaves the cursor, the process handle and both flags as
    they were; on an empty queue it does nothing. *)
Theorem shuffle_permutes_queue (e : Env) (s : State) :
  let r := shuffle_playlist e s in
  let idle := set_queue [] (current_track_index s) s in
  raised r = None
  ∧ current_playlist (state r) ≡ₚ current_playlist s
  ∧ current_track_index (state r) = current_track_index s
  ∧ player_process (state r) = player_process s
  ∧ is_playing (state r) = is_playing s
  ∧ is_paused (state r) = is_paused s
  ∧ shuffle_playlist e idle = mkResult [] None idle.
Proof.
  unfold shuffle_playlist.
  destruct (current_playlist s) as [|q qs] eqn:Hq; simpl; [by rewrite Hq|].
  repeat split. apply shuffle_perm.
Qed.

(** The cursor stays, the track under it need not: shuffling
    [A; B; C] while B plays puts another track at index 1. *)
Example shuffle_moves_current_track :
  let s' := state (shuffle_playlist Sample.hostile Sample.playing_B) in
  Py.getitem (current_playlist Sample.playing_B)
             (current_track_index Sample.playing_B) = Some Sample.trackB
  ∧ Py.getitem (current_playlist s') (current_track_index s') = Some Sample.trackC.
Proof. split; reflexivity. Qed.



End PlayerClaims.

(** * Properties of the catalog *)

Section CatalogFacts.
Import Catalog.

Lemma add_track_rows_nil t : add_track_rows t [] = t.
Proof. destruct t. unfold add_track_rows. simpl. by rewrite app_nil_r. Qed.

Lemma add_track_rows_row t r news :
  add_track_rows (add_track_row t r) news = add_track_rows t (r :: news).
Proof. unfold add_track_rows, add_track_row. simpl. by rewrite <- app_assoc. Qed.

Lemma paths_add_track_rows t news :
  paths (add_track_rows t news) = paths t ++ map row_path news.
Proof. unfold paths, add_track_rows. simpl. by rewrite map_app. Qed.

Lemma paths_add_track_row t r : paths (add_track_row t r) = paths t ++ [row_path r].
Proof. unfold paths, add_track_row. simpl. by rewrite map_app. Qed.

Lemma select_id_by_path_None t p :
  select_id_by_path t p = None ↔ p ∉ paths t.
Proof.
  unfold select_id_by_path, paths.
  induction (tracks t) as [|r rs IH]; simpl.
  - split; [intros _; apply not_elem_of_nil|done].
  - destruct (String.eqb (row_path r) p) eqn:E; simpl.
    + apply String.eqb_eq in E. split; [done|]. intros H. destruct H.
      rewrite <- E. apply list_elem_of_here.
    + apply String.eqb_neq in E. rewrite IH, not_elem_of_cons.
      split; [intros ?; split; [congruence|done]|intros [_ ?]; done].
Qed.

(** The four ways the loop body can go: skip the file, raise at the
    SELECT, raise at the INSERT, or insert one row and count it. *)
Lemma scan_file_cases meta root file t a :
  let p := Py.path_join root file in
  ((supported file = false ∨ (Py.utf8_valid p = true ∧ p ∈ paths t))
   ∧ scan_file meta root file t a = (t, inr a))
  ∨ (supported file = true ∧ Py.utf8_valid p = false
     ∧ scan_file meta root file t a = (t, inl UnicodeEncodeError))
  ∨ (supported file = true ∧ Py.utf8_valid p = true ∧ (p ∉ paths t)
     ∧ binds (meta p) = false
     ∧ scan_file meta root file t a = (t, inl ProgrammingError))
  ∨ (supported file = true ∧ Py.utf8_valid p = true ∧ (p ∉ paths t)
     ∧ binds (meta p) = true
     ∧ ∃ artist album d,
         extract_metadata (meta p) = (artist, album, DurationInt d)
         ∧ scan_file meta root file t a
           = (add_track_row t
                (mkTrackRow (next_rowid (map row_id (tracks t))) p file artist album d),
              inr (a + 1))).
Proof.
  intros p. unfold scan_file, binds. fold p.
  destruct (supported file); [|left; eauto].
  destruct (Py.utf8_valid p) eqn:Hv; [|right; left; eauto].
  destruct (select_id_by_path t p) as [i|] eqn:Hsel.
  - left. split; [|done]. right. split; [done|].
    destruct (decide (p ∈ paths t)) as [|Hn]; [done|].
    apply select_id_by_path_None in Hn. congruence.
  - apply select_id_by_path_None in Hsel. right. right.
    destruct (extract_metadata (meta p)) as [[artist album] [d|l]]; simpl.
    + right. rewrite bool_decide_eq_false_2 by done. eauto 12.
    + left. eauto.
Qed.

Ltac scan_file_step meta root file t a :=
  let p := fresh "p" in
  set (p := Py.path_join root file) in *;
  destruct (scan_file_cases meta root file t a)
    as [(Hskip & Heq)
       | [(Hsup & Hvalid & Heq)
         | [(Hsup & Hvalid & Hnew & Hbind & Heq)
           | (Hsup & Hvalid & Hnew & Hbind & artist & album & d & Hext & Heq)]]];
  fold p in Heq; rewrite Heq in *; clear Heq.

(** ** The nested loops are one loop over the visited files *)

Lemma scan_pairs_app meta xs ys t a :
  scan_pairs meta (xs ++ ys) t a
  = match scan_pairs meta xs t a with
    | (t', inr n) => scan_pairs meta ys t' n
    | (t', inl exn) => (t', inl exn)
    end.
Proof.
  revert t a. induction xs as [|[root file] xs IH]; intros t a; simpl; [done|].
  destruct (scan_file meta root file t a) as [t1 [e|n]]; [done|]. apply IH.
Qed.

Lemma scan_files_pairs meta root files t a :
  scan_files meta root files t a = scan_pairs meta (map (pair root) files) t a.
Proof.
  revert t a. induction files as [|file rest IH]; intros t a; simpl; [done|].
  destruct (scan_file meta root file t a) as [t1 [e|n]]; [done|]. apply IH.
Qed.

Lemma scan_walk_pairs meta walk t a :
  scan_walk meta walk t a = scan_pairs meta (visited walk) t a.
Proof.
  revert t a. induction walk as [|[root files] rest IH]; intros t a; [done|].
  unfold visited. simpl. rewrite scan_pairs_app, <- scan_files_pairs.
  destruct (scan_files meta root files t a) as [t1 [e|n]]; [done|]. apply IH.
Qed.

(** ** What one pass over the visited files does *)

Lemma scan_pairs_rows meta pairs t a t' res :
  scan_pairs meta pairs t a = (t', res) →
  ∃ news, t' = add_track_rows t news
          ∧ Forall (new_row meta) news
          ∧ ∀ n, res = inr n → n = a + Z.of_nat (length news).
Proof.
  revert t a. induction pairs as [|[root file] rest IH]; intros t a; simpl.
  - intros [= <- <-]. exists []. rewrite add_track_rows_nil.
    split; [done|]. split; [done|]. intros n [= <-]. simpl. lia.
  - scan_file_step meta root file t a.
    + apply IH.
    + intros [= <- <-]. exists []. rewrite add_track_rows_nil. by repeat split.
    + intros [= <- <-]. exists []. rewrite add_track_rows_nil. by repeat split.
    + intros Hrest. destruct (IH _ _ Hrest) as (news & -> & Hnews & Hcount).
      eexists (_ :: news). rewrite add_track_rows_row. split; [done|]. split.
      * constructor; [|done]. unfold new_row. simpl. done.
      * intros n Hn. rewrite (Hcount n Hn). simpl length. lia.
Qed.

Lemma scan_pairs_grows meta pairs t a t' res p :
  scan_pairs meta pairs t a = (t', res) → p ∈ paths t → p ∈ paths t'.
Proof.
  intros H Hp. destruct (scan_pairs_rows _ _ _ _ _ _ H) as (news & -> & _).
  rewrite paths_add_track_rows. apply elem_of_app. by left.
Qed.

Lemma scan_pairs_nodup meta pairs t a t' res :
  scan_pairs meta pairs t a = (t', res) → NoDup (paths t) → NoDup (paths t').
Proof.
  revert t a. induction pairs as [|[root file] rest IH]; intros t a; simpl.
  - by intros [= <- <-].
  - scan_file_step meta root file t a.
    + apply IH.
    + by intros [= <- <-].
    + by intros [= <- <-].
    + intros Hrest Hnd. apply (IH _ _ Hrest).
      rewrite paths_add_track_row. apply NoDup_app. split; [done|]. split.
      * intros x Hx Hx'. apply list_elem_of_singleton in Hx'. by subst.
      * apply NoDup_singleton.
Qed.

(** A pass that came to its end has every audio file of the walk in the
    catalog, and met no path it could not encode. *)
Lemma scan_pairs_covered meta pairs t a t' n p :
  scan_pairs meta pairs t a = (t', inr n) →
  p ∈ audio_paths_of pairs → p ∈ paths t'.
Proof.
  revert t a. induction pairs as [|[root file] rest IH]; intros t a; simpl.
  - intros _ H. by apply elem_of_nil in H.
  - scan_file_step meta root file t a.
    + intros Hrest Hp. destruct (supported file) eqn:Hs; [|by eapply IH].
      apply elem_of_cons in Hp as [->|Hp]; [|by eapply IH].
      destruct Hskip as [?|[_ Hin]]; [done|]. by eapply scan_pairs_grows.
    + done.
    + done.
    + intros Hrest Hp. rewrite Hsup in Hp.
      apply elem_of_cons in Hp as [->|Hp]; [|by eapply IH].
      eapply scan_pairs_grows; [done|].
      rewrite paths_add_track_row. apply elem_of_app. right.
      apply list_elem_of_singleton. done.
Qed.

Lemma scan_pairs_encodable meta pairs t a t' n p :
  scan_pairs meta pairs t a = (t', inr n) →
  p ∈ audio_paths_of pairs → Py.utf8_valid p = true.
Proof.
  revert t a. induction pairs as [|[root file] rest IH]; intros t a; simpl.
  - intros _ H. by apply elem_of_nil in H.
  - scan_file_step meta root file t a.
    + intros Hrest Hp. destruct (supported file) eqn:Hs; [|by eapply IH].
      apply elem_of_cons in Hp as [->|Hp]; [|by eapply IH].
      by destruct Hskip as [?|[? _]].
    + done.
    + done.
    + intros Hrest Hp. rewrite Hsup in Hp.
      apply elem_of_cons in Hp as [->|Hp]; [done|by eapply IH].
Qed.

(** A pass stops at an exception only for one of two reasons, each at
    an audio file of the walk: a path that cannot be encoded, or a path
    not yet in the catalog whose extracted duration does not bind. *)
Lemma scan_pairs_raises meta pairs t a t' e :
  scan_pairs meta pairs t a = (t', inl e) →
  ∃ q, q ∈ audio_paths_of pairs
       ∧ ((e = UnicodeEncodeError ∧ Py.utf8_valid q = false)
          ∨ (e = ProgrammingError ∧ Py.utf8_valid q = true
             ∧ (q ∉ paths t) ∧ binds (meta q) = false)).
Proof.
  revert t a. induction pairs as [|[root file] rest IH]; intros t a; simpl; [done|].
  scan_file_step meta root file t a.
  - intros Hrest. destruct (IH _ _ Hrest) as (q & Hq & Hwhy).
    exists q. split; [|done].
    destruct (supported file); [by apply list_elem_of_further|done].
  - intros [= <- <-]. exists p. rewrite Hsup.
    split; [apply list_elem_of_here|]. by left.
  - intros [= <- <-]. exists p. rewrite Hsup.
    split; [apply list_elem_of_here|]. by right.
  - intros Hrest. destruct (IH _ _ Hrest) as (q & Hq & Hwhy).
    exists q. rewrite Hsup. split; [by apply list_elem_of_further|].
    destruct Hwhy as [?|(? & ? & Hn & ?)]; [by left|right].
    repeat split; try done.
    intros Hold. apply Hn. rewrite paths_add_track_row. apply elem_of_app. by left.
Qed.

(** A pass over files that are all in the catalog, under paths that can
    be encoded, reads no metadata, writes nothing and counts nothing. *)
Lemma scan_pairs_rescan meta pairs t a :
  (∀ p, p ∈ audio_paths_of pairs → Py.utf8_valid p = true) →
  (∀ p, p ∈ audio_paths_of pairs → p ∈ paths t) →
  scan_pairs meta pairs t a = (t, inr a).
Proof.
  induction pairs as [|[root file] rest IH]; simpl; intros Hval Hall; [done|].
  scan_file_step meta root file t a.
  - apply IH; intros q Hq; [apply Hval|apply Hall];
      (destruct (supported file); [by apply list_elem_of_further|done]).
  - rewrite Hsup in Hval. specialize (Hval p (list_elem_of_here _ _)).
      subst p. rewrite Hvalid in Hval. discriminate Hval.
  - destruct Hnew. apply Hall. rewrite Hsup. apply list_elem_of_here.
  - destruct Hnew. apply Hall. rewrite Hsup. apply list_elem_of_here.
Qed.

(** The loop body raises before it writes, and whatever the count is. *)
Lemma scan_file_raises meta root file t (a a' : Z) t' e :
  scan_file meta root file t a = (t', inl e) →
  t' = t ∧ scan_file meta root file t a' = (t, inl e).
Proof.
  unfold scan_file.
  destruct (supported file); [|done].
  destruct (Py.utf8_valid _); [|by intros [= <- <-]].
  destruct (select_id_by_path t _); [done|].
  destruct (extract_metadata _) as [[artist album] duration].
  destruct (insert_track _ _ _ _ _ _); [|done]. by intros [= <- <-].
Qed.

(** It skips a file without a supported extension and one that is in
    the catalog. *)
Lemma scan_file_known meta root file t (a : Z) :
  supported file = false
  ∨ (Py.utf8_valid (Py.path_join root file) = true ∧ Py.path_join root file ∈ paths t) →
  scan_file meta root file t a = (t, inr a).
Proof.
  intros Hskip. unfold scan_file.
  destruct (supported file); [|done].
  destruct Hskip as [?|[-> Hin]]; [done|].
  destruct (select_id_by_path t _) eqn:Hsel; [done|].
  by apply select_id_by_path_None in Hsel.
Qed.

(** After it returned, the file is one it skips. *)
Lemma scan_file_returned meta root file t (a n : Z) t' :
  scan_file meta root file t a = (t', inr n) →
  supported file = false
  ∨ (Py.utf8_valid (Py.path_join root file) = true ∧ Py.path_join root file ∈ paths t').
Proof.
  destruct (scan_file_cases meta root file t a)
    as [(Hskip & Heq)
       | [(_ & _ & Heq)
         | [(_ & _ & _ & _ & Heq)
           | (_ & Hvalid & _ & _ & artist & album & d & _ & Heq)]]];
    rewrite Heq; intros [= <- <-]; [done|]. right. split; [done|].
  rewrite paths_add_track_row. apply elem_of_app. right.
  by apply list_elem_of_singleton.
Qed.

(** A pass that stopped at an exception stops at the same one, without
    writing, when run again over what it left. *)
Lemma scan_pairs_again meta pairs t a t' e a' :
  scan_pairs meta pairs t a = (t', inl e) →
  scan_pairs meta pairs t' a' = (t', inl e).
Proof.
  revert t a. induction pairs as [|[root file] rest IH]; intros t a; simpl; [done|].
  destruct (scan_file meta root file t a) as [t1 [e1|n]] eqn:Hfile.
  - intros [= <- <-]. destruct (scan_file_raises _ _ _ _ _ a' _ _ Hfile) as [-> Heq].
    by rewrite Heq.
  - intros Hrest. rewrite scan_file_known; [by eapply IH|].
    destruct (scan_file_returned _ _ _ _ _ _ _ Hfile) as [?|[? Hin]]; [by left|right].
    split; [done|]. exact (scan_pairs_grows _ _ _ _ _ _ _ Hrest Hin).
Qed.

(** Over files none of which is in the catalog, all different, all
    under paths that can be encoded and all with a duration that binds,
    the pass writes one row per file, in order. *)
Lemma scan_pairs_exact meta pairs t a :
  NoDup (paths t ++ audio_paths_of pairs) →
  (∀ p, p ∈ audio_paths_of pairs → Py.utf8_valid p = true) →
  (∀ p, p ∈ audio_paths_of pairs → binds (meta p) = true) →
  ∃ news, scan_pairs meta pairs t a
          = (add_track_rows t news, inr (a + Z.of_nat (length news)))
          ∧ map row_path news = audio_paths_of pairs
          ∧ Forall (new_row meta) news.
Proof.
  revert t a. induction pairs as [|[root file] rest IH]; intros t a; simpl.
  - intros _ _ _. exists []. rewrite add_track_rows_nil, Z.add_0_r. done.
  - intros Hnd Hval Hall. scan_file_step meta root file t a.
    + destruct (supported file) eqn:Hs.
      * destruct Hskip as [?|[_ Hin]]; [done|].
        apply NoDup_app in Hnd as (_ & Hdisj & _).
        destruct (Hdisj _ Hin). apply list_elem_of_here.
      * by apply IH.
    + rewrite Hsup in Hval. specialize (Hval p (list_elem_of_here _ _)).
      subst p. rewrite Hvalid in Hval. discriminate Hval.
    + rewrite Hsup in Hall.
      assert (binds (meta p) = true) as Hb by (apply Hall, list_elem_of_here).
      subst p. rewrite Hb in Hbind. discriminate Hbind.
    + rewrite Hsup in Hnd, Hval, Hall.
      destruct (IH (add_track_row t (mkTrackRow (next_rowid (map row_id (tracks t)))
                                      p file artist album d)) (a + 1))
        as (news & -> & Hpaths & Hnews).
      * rewrite paths_add_track_row, <- app_assoc. done.
      * intros q Hq. apply Hval. by apply list_elem_of_further.
      * intros q Hq. apply Hall. by apply list_elem_of_further.
      * exists (mkTrackRow (next_rowid (map row_id (tracks t)))
                           p file artist album d :: news).
        rewrite add_track_rows_row. split; [|split].
        -- f_equal. f_equal. rewrite length_cons. lia.
        -- rewrite map_cons, Hpaths, Hsup. done.
        -- constructor; [|done]. unfold new_row. simpl. done.
Qed.

(** Conversely, a pass that meets either reason stops at an
    exception. *)
Lemma scan_pairs_must_raise meta pairs t a q :
  q ∈ audio_paths_of pairs →
  Py.utf8_valid q = false ∨ ((q ∉ paths t) ∧ binds (meta q) = false) →
  ∃ t' e, scan_pairs meta pairs t a = (t', inl e).
Proof.
  revert t a. induction pairs as [|[root file] rest IH]; intros t a; simpl.
  - intros Hq. by apply elem_of_nil in Hq.
  - intros Hq Hwhy.
    destruct (decide (q = Py.path_join root file)) as [->|Hne].
    + destruct (scan_file_cases meta root file t a)
        as [([Hf|[Hv Hin]] & _)
           | [(_ & _ & Heq) | [(_ & _ & _ & _ & Heq) | (_ & Hv & _ & Hb' & _)]]].
      * rewrite Hf in Hq. destruct (IH t a Hq Hwhy) as (t' & e & Ht').
        exists t', e. unfold scan_file. by rewrite Hf.
      * destruct Hwhy as [?|[? _]]; [congruence|done].
      * rewrite Heq. by eexists _, _.
      * rewrite Heq. by eexists _, _.
      * destruct Hwhy as [?|[_ ?]]; congruence.
    + assert (q ∈ audio_paths_of rest) as Hq'.
      { destruct (supported file); [|done].
        apply elem_of_cons in Hq as [?|?]; done. }
      scan_file_step meta root file t a.
      * by apply IH.
      * by eexists _, _.
      * by eexists _, _.
      * apply IH; [done|]. destruct Hwhy as [?|[Hn ?]]; [by left|right].
        split; [|done]. rewrite paths_add_track_row.
        intros Hin. apply elem_of_app in Hin as [?|Hin]; [done|].
        by apply list_elem_of_singleton in Hin.
Qed.

End CatalogFacts.

(** * The catalog's claims *)

Section CatalogClaims.
Import Catalog.

Lemma unreadable_default m : unreadable m = true → extract_metadata m = default_metadata.
Proof. by destruct m. Qed.

Lemma unreadable_binds m : unreadable m = true → binds m = true.
Proof. by destruct m. Qed.

Lemma visited_audio_path pairs root file :
  (root, file) ∈ pairs → supported file = true →
  Py.path_join root file ∈ audio_paths_of pairs.
Proof.
  induction pairs as [|[root' file'] rest IH]; simpl; intros Hin Hs.
  - by apply elem_of_nil in Hin.
  - apply elem_of_cons in Hin as [[= <- <-]|Hin].
    + rewrite Hs. apply list_elem_of_here.
    + destruct (supported file'); [apply list_elem_of_further|]; by apply IH.
Qed.

(** The loop body on a file without readable tags that is not in the
    catalog, under a path that can be encoded: one row with the default
    artist, album and duration, and one more track counted. *)
Lemma scan_file_unreadable meta root file t a :
  supported file = true →
  Py.utf8_valid (Py.path_join root file) = true →
  Py.path_join root file ∉ paths t →
  unreadable (meta (Py.path_join root file)) = true →
  scan_file meta root file t a
  = (add_track_row t (default_row (next_rowid (map row_id (tracks t)))
                                  (Py.path_join root file) file),
     inr (a + 1)).
Proof.
  intros Hs Hv Hnew Hun. unfold scan_file. rewrite Hs, Hv.
  apply select_id_by_path_None in Hnew. rewrite Hnew.
  rewrite (unreadable_default _ Hun). simpl.
  apply select_id_by_path_None in Hnew. by rewrite bool_decide_eq_false_2.
Qed.

(** [scan_music_library] in terms of the single loop. *)
Lemma scan_music_library_pairs fs meta music_dir c :
  scan_music_library fs meta music_dir c
  = match scan_pairs meta (visited (Os.walk music_dir fs)) (view c) 0 with
    | (t', inr n) => (commit t', inr n)
    | (t', inl exn) => (mkConn t' (durable c), inl exn)
    end.
Proof. unfold scan_music_library. by rewrite scan_walk_pairs. Qed.

(** What stops a scan: an audio file of the walk whose path cannot be
    encoded, or one with readable tags whose duration does not bind.  A
    file without readable tags is never the second kind. *)
Lemma scan_music_library_raises fs meta music_dir c e :
  (scan_music_library fs meta music_dir c).2 = inl e →
  ∃ q, q ∈ audio_paths (Os.walk music_dir fs)
       ∧ ((e = UnicodeEncodeError ∧ Py.utf8_valid q = false)
          ∨ (e = ProgrammingError ∧ Py.utf8_valid q = true
             ∧ (q ∉ paths (view c))
             ∧ unreadable (meta q) = false ∧ binds (meta q) = false)).
Proof.
  rewrite scan_music_library_pairs.
  destruct (scan_pairs meta (visited (Os.walk music_dir fs)) (view c) 0)
    as [t' [e'|n]] eqn:Hscan; simpl; [|done].
  intros [= ->]. destruct (scan_pairs_raises _ _ _ _ _ _ Hscan) as (q & Hq & Hwhy).
  exists q. split; [done|].
  destruct Hwhy as [?|(? & ? & ? & Hb)]; [by left|right].
  repeat split; try done.
  destruct (unreadable (meta q)) eqn:Hu; [|done].
  rewrite (unreadable_binds _ Hu) in Hb. discriminate Hb.
Qed.

(** C2.  A scan keeps the paths of the catalog pairwise different; a
    second scan of the same tree after one that returned inserts
    nothing and returns 0, whatever the files' metadata now is; and
    after a scan that stopped at an exception, scanning again writes
    nothing either. *)
Theorem scan_twice_inserts_nothing fs meta meta' music_dir c :
  NoDup (paths (view c)) →
  let r := scan_music_library fs meta music_dir c in
  NoDup (paths (view r.1))
  ∧ (∀ n, r.2 = inr n →
          scan_music_library fs meta' music_dir r.1 = (r.1, inr 0))
  ∧ view (scan_music_library fs meta music_dir r.1).1 = view r.1.
Proof.
  intros Hnd r. subst r. rewrite !scan_music_library_pairs.
  destruct (scan_pairs meta (visited (Os.walk music_dir fs)) (view c) 0)
    as [t' [e|n]] eqn:Hscan; simpl.
  - split; [by eapply scan_pairs_nodup|]. split; [done|].
    by rewrite (scan_pairs_again _ _ _ _ _ _ 0 Hscan).
  - split; [by eapply scan_pairs_nodup|].
    assert (∀ m, scan_pairs m (visited (Os.walk music_dir fs)) t' 0 = (t', inr 0))
      as Hre.
    { intros m. apply scan_pairs_rescan; intros p Hp.
      - by eapply scan_pairs_encodable.
      - by eapply scan_pairs_covered. }
    split.
    + intros _ _. by rewrite Hre.
    + by rewrite Hre.
Qed.

Lemma scan_twice_inserts_nothing_witness :
  let r := scan_music_library Sample.library Sample.library_meta
                              "/home/u/Music" (commit empty) in
  NoDup (paths (view (commit empty)))
  ∧ r.2 = inr 4
  ∧ scan_music_library Sample.library (λ _, MutagenNone) "/home/u/Music" r.1
    = (r.1, inr 0).
Proof.
  intros r.
  assert (NoDup (paths (view (commit empty)))) as Hnd by apply NoDup_nil_2.
  split; [exact Hnd|]. split; [reflexivity|].
  pose proof (scan_twice_inserts_nothing Sample.library Sample.library_meta
                (λ _, MutagenNone) "/home/u/Music" (commit empty) Hnd) as H.
  destruct H as (_ & H & _). apply (H 4). reflexivity.
Defined.

(** C8, where the code departs from it.  Two audio files, neither with
    readable tags, the second under a name that is not UTF-8: the scan
    writes the default row for the first, then raises at the SELECT for
    the second, before its metadata is looked at.  The second file gets
    no row, no count is returned and nothing is committed. *)
Theorem scan_stops_at_undecodable_name :
  let r := scan_music_library Sample.undecodable_library (λ _, MutagenRaises)
                              "/home/u/Music" (commit empty) in
  audio_paths (Os.walk "/home/u/Music" Sample.undecodable_library)
  = ["/home/u/Music/broken.mp3"%string; Sample.undecodable_path]
  ∧ Py.utf8_valid Sample.undecodable_path = false
  ∧ r.2 = inl UnicodeEncodeError
  ∧ tracks (view r.1)
    = [default_row 1 "/home/u/Music/broken.mp3" "broken.mp3"]
  ∧ durable r.1 = empty.
Proof. repeat split. Qed.

(** What the scan does otherwise: when the tags of a file cannot be
    read, the [try] block yields the default triple; and a scan that
    returns has, for each such file of the walk, a row with the default
    artist, album and duration, and counts the rows it added. *)
Lemma scan_defaults_unreadable_metadata fs meta music_dir c p n :
  p ∈ audio_paths (Os.walk music_dir fs) →
  unreadable (meta p) = true →
  p ∉ paths (view c) →
  (scan_music_library fs meta music_dir c).2 = inr n →
  extract_metadata (meta p) = default_metadata
  ∧ ∃ news row,
      (scan_music_library fs meta music_dir c).1
      = commit (add_track_rows (view c) news)
      ∧ n = Z.of_nat (length news)
      ∧ row ∈ news
      ∧ row_path row = p
      ∧ row_artist row = "Unknown Artist"%string
      ∧ row_album row = "Unknown Album"%string
      ∧ row_duration row = 0.
Proof.
  intros Hp Hun Hnew Hret. split; [by apply unreadable_default|].
  revert Hret. rewrite scan_music_library_pairs.
  destruct (scan_pairs meta (visited (Os.walk music_dir fs)) (view c) 0)
    as [t' [e'|n']] eqn:Hscan; simpl; [done|].
  intros [= ->].
  destruct (scan_pairs_rows _ _ _ _ _ _ Hscan) as (news & -> & Hnews & Hcount).
  pose proof (scan_pairs_covered _ _ _ _ _ _ _ Hscan Hp) as Hcov.
  rewrite paths_add_track_rows in Hcov.
  apply elem_of_app in Hcov as [Hold|Hcov]; [done|].
  apply list_elem_of_fmap in Hcov as (row & Hrow & Hmem).
  exists news, row. split; [done|]. split; [rewrite (Hcount n eq_refl); lia|].
  split; [done|]. split; [done|].
  rewrite Forall_forall in Hnews. specialize (Hnews row Hmem).
  unfold new_row in Hnews. rewrite <- Hrow in Hnews.
  rewrite (unreadable_default _ Hun) in Hnews.
  by injection Hnews as <- <- <-.
Qed.

(** A subdirectory that cannot be listed adds nothing to the walk of
    its parent. *)
Lemma walk_skips_unlistable top name pre sub post :
  Os.walk top (Os.Dir name (Some (pre ++ Os.Dir sub None :: post)))
  = Os.walk top (Os.Dir name (Some (pre ++ post))).
Proof.
  simpl. unfold Os.file_names.
  rewrite !flat_map_app. simpl. done.
Qed.

(** C5, as the code has it.  Take a tree in which every audio file has
    a path that can be encoded and a duration that binds (as it does
    when the tags are unreadable or have no ['length'] entry).  Then a scan of it returns
    from any catalog, unreadable files or not.  Over an empty catalog,
    the audio paths being pairwise different, it reports one track per
    audio file, unreadable ones included, and a query with a limit at
    least that large returns exactly those files in the order visited,
    each unreadable one with the default artist and album.  And a
    subdirectory that cannot be listed changes nothing. *)
Theorem scan_counts_unreadable_files fs meta music_dir limit :
  let ps := audio_paths (Os.walk music_dir fs) in
  (∀ p, p ∈ ps → Py.utf8_valid p = true) →
  (∀ p, p ∈ ps → binds (meta p) = true) →
  (∀ c, ∃ c' n, scan_music_library fs meta music_dir c = (c', inr n))
  ∧ (NoDup ps →
     Z.of_nat (length ps) ≤ limit →
     ∃ c',
       scan_music_library fs meta music_dir (commit empty)
       = (c', inr (Z.of_nat (length ps)))
       ∧ map track_path (get_tracks c' limit 0 None) = ps
       ∧ ∀ t, t ∈ get_tracks c' limit 0 None →
              unreadable (meta (track_path t)) = true →
              track_artist t = "Unknown Artist"%string
              ∧ track_album t = "Unknown Album"%string)
  ∧ ∀ c name pre sub post,
      scan_music_library (Os.Dir name (Some (pre ++ Os.Dir sub None :: post)))
                         meta music_dir c
      = scan_music_library (Os.Dir name (Some (pre ++ post))) meta music_dir c.
Proof.
  intros ps Hval Hall. split; [|split].
  - intros c.
    destruct (scan_music_library fs meta music_dir c) as [c' [e|n]] eqn:Hscan;
      [|by exists c', n].
    destruct (scan_music_library_raises fs meta music_dir c e) as (q & Hq & Hwhy);
      [by rewrite Hscan|].
    destruct Hwhy as [[_ Hv]|(_ & _ & _ & _ & Hb)].
    + rewrite (Hval q Hq) in Hv. discriminate Hv.
    + rewrite (Hall q Hq) in Hb. discriminate Hb.
  - intros Hnd Hlimit.
    destruct (scan_pairs_exact meta (visited (Os.walk music_dir fs)) empty 0)
      as (news & Hscan & Hpaths & Hnews); [done|done|done|].
    fold (audio_paths (Os.walk music_dir fs)) in Hpaths. fold ps in Hpaths.
    assert (length news = length ps) as Hlen by (by rewrite <- Hpaths, length_map).
    exists (commit (add_track_rows empty news)).
    rewrite scan_music_library_pairs. simpl. rewrite Hscan, Hlen.
    assert (get_tracks (commit (add_track_rows empty news)) limit 0 None
            = to_track <$> news) as Hget.
    { unfold get_tracks, limit_offset. simpl.
      change (Z.to_nat 0) with 0%nat. rewrite drop_0.
      case_decide; [lia|]. rewrite take_ge; [done|].
      rewrite Hlen. lia. }
    rewrite Hget. split; [done|]. split.
    + rewrite <- Hpaths. rewrite <- list_fmap_compose. done.
    + intros t Ht Hun. apply list_elem_of_fmap in Ht as (row & -> & Hrow).
      rewrite Forall_forall in Hnews. specialize (Hnews row Hrow).
      unfold new_row in Hnews. simpl in Hun.
      rewrite (unreadable_default _ Hun) in Hnews.
      injection Hnews as Hartist Halbum _. simpl.
      by rewrite <- Hartist, <- Halbum.
  - intros c name pre sub post. unfold scan_music_library.
    by rewrite walk_skips_unlistable.
Qed.

Lemma scan_counts_unreadable_files_witness :
  let r := scan_music_library Sample.library Sample.library_meta
                              "/home/u/Music" (commit empty) in
  (∀ p, p ∈ audio_paths (Os.walk "/home/u/Music" Sample.library) →
        Py.utf8_valid p = true)
  ∧ (∀ p, p ∈ audio_paths (Os.walk "/home/u/Music" Sample.library) →
          binds (Sample.library_meta p) = true)
  ∧ NoDup (audio_paths (Os.walk "/home/u/Music" Sample.library))
  ∧ r.2 = inr 4
  ∧ map track_path (get_tracks r.1 20 0 None)
    = ["/home/u/Music/a.mp3"; "/home/u/Music/b.FLAC"; "/home/u/Music/c.ogg";
       "/home/u/Music/broken.mp3"]%string.
Proof.
  intros r.
  assert (NoDup (audio_paths (Os.walk "/home/u/Music" Sample.library))) as Hnd.
  { vm_compute. repeat (apply NoDup_cons; split;
      [intros Hin; repeat (apply elem_of_cons in Hin as [Hin|Hin]; [discriminate Hin|]);
       by apply elem_of_nil in Hin|]).
    apply NoDup_nil_2. }
  assert (∀ p, p ∈ audio_paths (Os.walk "/home/u/Music" Sample.library) →
               Py.utf8_valid p = true) as Hval.
  { intros p Hp. vm_compute in Hp.
    repeat (apply elem_of_cons in Hp as [->|Hp]; [reflexivity|]).
    by apply elem_of_nil in Hp. }
  assert (∀ p, p ∈ audio_paths (Os.walk "/home/u/Music" Sample.library) →
               binds (Sample.library_meta p) = true) as Hall.
  { intros p Hp. vm_compute in Hp.
    repeat (apply elem_of_cons in Hp as [->|Hp]; [reflexivity|]).
    by apply elem_of_nil in Hp. }
  assert (Z.of_nat (length (audio_paths (Os.walk "/home/u/Music" Sample.library))) ≤ 20)
    as Hlimit by (vm_compute; discriminate).
  split; [exact Hval|]. split; [exact Hall|]. split; [exact Hnd|].
  destruct (scan_counts_unreadable_files Sample.library Sample.library_meta
              "/home/u/Music" 20 Hval Hall) as (_ & H & _).
  destruct (H Hnd Hlimit) as (c' & Hscan & Hpaths & _).
  subst r. rewrite Hscan. simpl. split; [reflexivity|]. rewrite Hpaths. reflexivity.
Defined.

(** C5 as stated fails: with three tagged audio files and one audio
    file that cannot be read, the scan of an empty catalog reports 4,
    not 3, and the unreadable file is among the tracks a query with
    limit 20 returns. *)
Lemma scan_inserts_unreadable_file :
  let r := scan_music_library Sample.library Sample.library_meta
                              "/home/u/Music" (commit empty) in
  unreadable (Sample.library_meta "/home/u/Music/broken.mp3") = true
  ∧ r.2 = inr 4
  ∧ r.2 ≠ inr 3
  ∧ length (get_tracks r.1 20 0 None) = 4%nat
  ∧ mkTrack 4 "/home/u/Music/broken.mp3" "broken.mp3" "Unknown Artist" "Unknown Album"
    ∈ get_tracks r.1 20 0 None.
Proof.
  vm_compute. repeat split.
  - discriminate.
  - do 3 apply list_elem_of_further. apply list_elem_of_here.
Qed.

(** ** Playlists *)

(** A name already present: the INSERT raises and neither the view nor
    what is committed changes. *)
Lemma create_playlist_duplicate_name name tracks c :
  name ∈ map playlist_name (playlists (view c)) →
  create_playlist name tracks c = (c, inl IntegrityError).
Proof. intros Hin. unfold create_playlist. by rewrite bool_decide_eq_true_2. Qed.

(** A fresh name: one playlist row is added and every given track id is
    associated with it, whether or not [tracks] has a row with that id. *)
Lemma create_playlist_fresh_name name tracks c :
  name ∉ map playlist_name (playlists (view c)) →
  ∃ msg,
    let new_id := next_rowid (map playlist_id (playlists (view c))) in
    create_playlist name tracks c
    = (commit (mkTables (Catalog.tracks (view c))
                        (playlists (view c) ++ [mkPlaylistRow new_id name])
                        (playlist_tracks (view c)
                         ++ map (λ t, (new_id, track_id t)) tracks)),
       inr msg).
Proof.
  intros Hnew. unfold create_playlist. rewrite bool_decide_eq_false_2 by done.
  eexists. reflexivity.
Qed.

(** C4, where the code departs from it.  A playlist made of a track
    whose id is in no row of [tracks] is created without an error: the
    association row is written and committed. *)
Theorem create_playlist_accepts_unknown_track :
  (track_id Sample.ghost ∉ map row_id (tracks empty))
  ∧ create_playlist "Favorites" [Sample.ghost] (commit empty)
    = (commit (mkTables [] [mkPlaylistRow 1 "Favorites"] [(1, 99)]),
       inr "Playlist 'Favorites' created with 1 tracks."%string).
Proof. split; [apply not_elem_of_nil|reflexivity]. Qed.

(** Scenario D holds: the second creation of "Favorites" raises and one
    playlist of that name remains. *)
Example create_playlist_twice :
  let c1 := (create_playlist "Favorites" [Sample.trackA; Sample.trackB] (commit empty)).1 in
  create_playlist "Favorites" [Sample.trackC] c1 = (c1, inl IntegrityError)
  ∧ list_playlists c1 = [(1, "Favorites"%string)].
Proof. split; reflexivity. Qed.

End CatalogClaims.

(** * More on the playback controller *)

Section PlayerRuns.
Import Player Session.

Lemma getitem_in_range {A} (l : list A) (i : Z) :
  0 ≤ i < Z.of_nat (length l) → is_Some (Py.getitem l i).
Proof.
  intros Hi. unfold Py.getitem. rewrite decide_True by done.
  apply lookup_lt_is_Some. lia.
Qed.

Lemma cursor_valid_getitem s :
  cursor_valid s = true → current_playlist s ≠ [] →
  is_Some (Py.getitem (current_playlist s) (current_track_index s)).
Proof.
  unfold cursor_valid, len. intros Hv Hq.
  destruct (current_playlist s) as [|q qs] eqn:E; [done|].
  apply bool_decide_eq_true in Hv. by apply getitem_in_range.
Qed.

Lemma shuffle_length {A} rand (x : list A) : length (Py.shuffle rand x) = length x.
Proof. apply Permutation_length, shuffle_perm. Qed.

Lemma play_cursor_valid tracks e s :
  cursor_valid s = true → cursor_valid (state (play tracks e s)) = true.
Proof.
  intros Hv. unfold cursor_valid, len.
  rewrite play_queue, play_index.
  destruct tracks as [[|t ts]|]; simpl; try done;
    apply bool_decide_eq_true; simpl; lia.
Qed.

Lemma exec_cursor_valid c e s :
  cursor_valid s = true → cursor_valid (state (exec c e s)) = true.
Proof.
  intros Hv. destruct c; simpl.
  - by apply play_cursor_valid.
  - unfold pause. by repeat (case_match; simpl).
  - unfold resume. by repeat (case_match; simpl).
  - unfold stop. by repeat (case_match; simpl).
  - unfold next_track. destruct (current_playlist s) as [|q qs] eqn:E; [done|].
    apply play_cursor_valid. unfold cursor_valid, len. simpl. rewrite E.
    apply bool_decide_eq_true, Z.mod_pos_bound. simpl. lia.
  - unfold previous_track. destruct (current_playlist s) as [|q qs] eqn:E; [done|].
    apply play_cursor_valid. unfold cursor_valid, len. simpl. rewrite E.
    apply bool_decide_eq_true, Z.mod_pos_bound. simpl. lia.
  - unfold shuffle_playlist. destruct (current_playlist s) as [|q qs] eqn:E; [done|].
    simpl. unfold cursor_valid, len in *. simpl. rewrite E in Hv.
    pose proof (shuffle_length (rand e) (q :: qs)) as Hlen.
    destruct (Py.shuffle (rand e) (q :: qs)) as [|q' qs'] eqn:E'; [done|].
    apply bool_decide_eq_true in Hv. apply bool_decide_eq_true.
    rewrite Hlen. done.
Qed.

Lemma run_cursor_valid script s :
  cursor_valid s = true → cursor_valid (run script s) = true.
Proof.
  revert s. induction script as [|[c e] rest IH]; intros s H; simpl; [done|].
  by apply IH, exec_cursor_valid.
Qed.

Lemma play_no_index_error tracks e s :
  cursor_valid s = true → raised (play tracks e s) ≠ Some IndexError.
Proof.
  intros Hv. unfold play.
  assert (cursor_valid (assign_tracks tracks s) = true) as Hv1.
  { destruct tracks as [[|t ts]|]; simpl; try done;
      unfold cursor_valid, len; simpl; apply bool_decide_eq_true; lia. }
  destruct (current_playlist (assign_tracks tracks s)) as [|q qs] eqn:E; [done|].
  assert (is_Some (Py.getitem (current_playlist (state (stop e (assign_tracks tracks s))))
                     (current_track_index (state (stop e (assign_tracks tracks s))))))
    as [t Ht].
  { assert (current_playlist (state (stop e (assign_tracks tracks s)))
            = current_playlist (assign_tracks tracks s)
            ∧ current_track_index (state (stop e (assign_tracks tracks s)))
              = current_track_index (assign_tracks tracks s)) as [-> ->]
      by (unfold stop; by case_match).
    apply cursor_valid_getitem; [done|]. by rewrite E. }
  rewrite Ht. by destruct (popen_result e).
Qed.

(** X1.  In every state reached from the initial one the cursor is an
    index of the queue whenever the queue is not empty, so the lookup
    [current_playlist[current_track_index]] in [play] always finds a
    track and no command leaves with an [IndexError]. *)
Theorem cursor_stays_in_range (script : list (Command * Env)) (c : Command) (e : Env) :
  let s := run script init in
  (current_playlist s ≠ [] →
     0 ≤ current_track_index s < len s
     ∧ is_Some (Py.getitem (current_playlist s) (current_track_index s)))
  ∧ raised (exec c e s) ≠ Some IndexError.
Proof.
  intros s. pose proof (run_cursor_valid script init eq_refl) as Hv. fold s in Hv.
  split.
  - intros Hq. split; [|by apply cursor_valid_getitem].
    unfold cursor_valid in Hv. destruct (current_playlist s); [done|].
    by apply bool_decide_eq_true in Hv.
  - destruct c; simpl.
    + by apply play_no_index_error.
    + unfold pause. by repeat case_match.
    + unfold resume. by repeat case_match.
    + unfold stop. by case_match.
    + unfold next_track. destruct (current_playlist s) as [|q qs] eqn:E; [done|].
      apply play_no_index_error. unfold cursor_valid, len. simpl. rewrite E.
      apply bool_decide_eq_true, Z.mod_pos_bound. simpl. lia.
    + unfold previous_track. destruct (current_playlist s) as [|q qs] eqn:E; [done|].
      apply play_no_index_error. unfold cursor_valid, len. simpl. rewrite E.
      apply bool_decide_eq_true, Z.mod_pos_bound. simpl. lia.
    + unfold shuffle_playlist. by case_match.
Qed.

Lemma cursor_stays_in_range_witness :
  current_playlist Sample.playing_B ≠ []
  ∧ 0 ≤ current_track_index Sample.playing_B < len Sample.playing_B.
Proof.
  assert (current_playlist Sample.playing_B ≠ []) as Hq by (vm_compute; discriminate).
  split; [exact Hq|].
  destruct (cursor_stays_in_range
              [(Play (Some [Sample.trackA; Sample.trackB; Sample.trackC]), Sample.calm);
               (Next, Sample.calm)] Stop Sample.calm) as [H _].
  apply (H Hq).
Defined.

(** X2.  With a live process that is not paused and signals that get
    through, [pause] followed by [resume] gives back the very state it
    started from, the same process included: the process was sent
    SIGSTOP then SIGCONT, and was neither terminated nor respawned. *)
Theorem pause_resume_round_trip (e1 e2 : Env) (s : State) (p : Proc) :
  player_process s = Some p →
  is_paused s = false →
  send_signal_raises e1 = false →
  send_signal_raises e2 = false →
  let paused := pause e1 s in
  let resumed := resume e2 (state paused) in
  is_paused (state paused) = true
  ∧ state resumed = s
  ∧ trace paused ++ trace resumed
    = [ESignal p SIGSTOP; EPrint "Playback paused.";
       ESignal p SIGCONT; EPrint "Playback resumed."]
  ∧ raised paused = None ∧ raised resumed = None.
Proof.
  intros Hp Hpa H1 H2. unfold pause, resume.
  destruct s as [q i pl pa pr]. simpl in *. subst.
  rewrite H1. simpl. rewrite H2. done.
Qed.

Lemma pause_resume_round_trip_witness :
  player_process Sample.playing_B = Some 7%nat
  ∧ state (resume Sample.calm (state (pause Sample.calm Sample.playing_B)))
    = Sample.playing_B.
Proof.
  split; [reflexivity|].
  apply (pause_resume_round_trip Sample.calm Sample.calm Sample.playing_B 7%nat);
    reflexivity.
Defined.

Lemma exec_alive c e s :
  alive (trace (exec c e s)) (option_list (player_process s))
  = option_list (player_process (state (exec c e s))).
Proof.
  assert (∀ p : Proc, filter (λ q, q ≠ p) [p] = []) as Hfilter.
  { intros p. rewrite filter_cons_False, filter_nil; [done|]. by intros []. }
  assert (∀ e s, alive (trace (stop e s)) (option_list (player_process s))
                 = option_list (player_process (state (stop e s)))) as Hstop.
  { intros e0 [q i pl pa [p|]]; unfold stop, alive; simpl; [|done].
    destruct (terminate_raises e0); simpl; by rewrite Hfilter. }
  assert (∀ tracks e s, alive (trace (play tracks e s)) (option_list (player_process s))
                        = option_list (player_process (state (play tracks e s)))) as Hplay.
  { intros tracks e0 s0. unfold play.
    assert (player_process (assign_tracks tracks s0) = player_process s0) as Hpr
      by (by destruct tracks as [[|? ?]|]).
    destruct (current_playlist (assign_tracks tracks s0)); simpl; [by rewrite Hpr|].
    rewrite <- Hpr.
    pose proof (Hstop e0 (assign_tracks tracks s0)) as Hst.
    assert (player_process (state (stop e0 (assign_tracks tracks s0))) = None) as Hnone
      by (unfold stop; by case_match).
    rewrite Hnone in Hst.
    destruct (Py.getitem _ _); simpl; [|by rewrite Hst, Hnone].
    destruct (popen_result e0); simpl; unfold alive in *;
      rewrite foldl_app, Hst; simpl; [done|by rewrite Hnone]. }
  destruct c; simpl; [apply Hplay| | |apply Hstop| | |].
  - unfold pause, alive. destruct s as [q i pl pa [p|]]; simpl; [|done].
    by destruct (send_signal_raises e).
  - unfold resume, alive. destruct s as [q i pl [] [p|]]; simpl; try done.
    by destruct (send_signal_raises e).
  - unfold next_track. destruct (current_playlist s); [done|].
    apply (Hplay None e (set_index _ s)).
  - unfold previous_track. destruct (current_playlist s); [done|].
    apply (Hplay None e (set_index _ s)).
  - unfold shuffle_playlist, alive. by destruct s as [[|q qs] i pl pa pr].
Qed.

(** X3.  Along every run from the initial state, the processes that
    were started and not yet asked to terminate are exactly the one the
    controller holds a handle on, if any: [play] tears the old process
    down before it spawns, so never more than one is alive and none is
    left behind without a handle. *)
Theorem one_live_process (script : list (Command * Env)) :
  alive (run_trace script init) [] = option_list (player_process (run script init))
  ∧ (length (alive (run_trace script init) []) ≤ 1)%nat.
Proof.
  assert (∀ s, alive (run_trace script s) (option_list (player_process s))
               = option_list (player_process (run script s))) as H.
  { induction script as [|[c e] rest IH]; intros s; simpl; [done|].
    unfold alive in *. rewrite foldl_app.
    pose proof (exec_alive c e s) as Hstep. unfold alive in Hstep.
    rewrite Hstep. apply IH. }
  specialize (H init). simpl in H. split; [done|].
  rewrite H. destruct (player_process (run script init)); simpl; lia.
Qed.

(** X4.  When [Popen] raises, [play] reports it and leaves the
    controller usable and idle: no exception leaves the method, the
    old process has been stopped, no handle is held and both flags are
    off, while queue and cursor are those [play] was working with. *)
Theorem play_spawn_failure_leaves_idle
    (tracks : option (list Track)) (e : Env) (s : State) (msg : string) :
  consistent s = true →
  cursor_valid s = true →
  popen_result e = inr msg →
  current_playlist (assign_tracks tracks s) ≠ [] →
  let r := play tracks e s in
  raised r = None
  ∧ player_process (state r) = None
  ∧ is_playing (state r) = false
  ∧ is_paused (state r) = false
  ∧ current_playlist (state r) = current_playlist (assign_tracks tracks s)
  ∧ current_track_index (state r) = current_track_index (assign_tracks tracks s)
  ∧ last (trace r) = Some (EPrint ("Error playing track: " +:+ msg))
  ∧ ∀ argv p, ESpawn argv p ∉ trace r.
Proof.
  intros Hc Hv Hpopen Hq r.
  assert (cursor_valid (assign_tracks tracks s) = true) as Hv1.
  { destruct tracks as [[|t ts]|]; simpl; try done;
      unfold cursor_valid, len; simpl; apply bool_decide_eq_true; lia. }
  assert (consistent (assign_tracks tracks s) = true) as Hc1
    by (by destruct tracks as [[|t ts]|]).
  destruct (cursor_valid_getitem _ Hv1 Hq) as [t Ht].
  subst r. rewrite play_queue, play_index. unfold play.
  destruct (assign_tracks tracks s) as [[|q qs] i pl pa [p|]] eqn:E;
    simpl in *; try done; unfold stop; simpl; rewrite Ht, Hpopen; simpl.
  - repeat split; try done.
    + by destruct (terminate_raises e).
    + intros argv p' Hin. destruct (terminate_raises e); simpl in Hin;
        repeat (apply elem_of_cons in Hin as [Hin|Hin]; [discriminate Hin|]);
        by apply elem_of_nil in Hin.
  - destruct pl, pa; try done. repeat split; try done.
    intros argv p' Hin.
    repeat (apply elem_of_cons in Hin as [Hin|Hin]; [discriminate Hin|]).
    by apply elem_of_nil in Hin.
Qed.

Lemma play_spawn_failure_leaves_idle_witness :
  consistent Sample.playing_B = true
  ∧ player_process (state (play None Sample.hostile Sample.playing_B)) = None
  ∧ is_playing (state (play None Sample.hostile Sample.playing_B)) = false.
Proof.
  split; [reflexivity|].
  assert (current_playlist (assign_tracks None Sample.playing_B) ≠ []) as Hq
    by (vm_compute; discriminate).
  pose proof (play_spawn_failure_leaves_idle None Sample.hostile Sample.playing_B
                "No such file or directory: 'mpv'" eq_refl eq_refl eq_refl Hq) as H.
  simpl in H. destruct H as (_ & H1 & H2 & _). by split.
Defined.

(** X5.  With tracks queued and the cursor in range, [previous_track]
    undoes [next_track] and [next_track] undoes [previous_track] as far
    as queue and cursor go, whatever happens to the player processes. *)
Theorem next_previous_inverse (e1 e2 : Env) (s : State) :
  current_playlist s ≠ [] →
  0 ≤ current_track_index s < len s →
  let forth := state (previous_track e2 (state (next_track e1 s))) in
  let back := state (next_track e2 (state (previous_track e1 s))) in
  current_track_index forth = current_track_index s
  ∧ current_playlist forth = current_playlist s
  ∧ current_track_index back = current_track_index s
  ∧ current_playlist back = current_playlist s.
Proof.
  intros Hq Hc forth back.
  destruct (next_track_index e1 s Hq) as [Hn Hnq].
  destruct (previous_track_index e1 s Hq) as [Hp Hpq].
  assert (current_playlist (state (next_track e1 s)) ≠ []) as Hq1 by (by rewrite Hnq).
  assert (current_playlist (state (previous_track e1 s)) ≠ []) as Hq2 by (by rewrite Hpq).
  destruct (previous_track_index e2 _ Hq1) as [Hpn Hpnq].
  destruct (next_track_index e2 _ Hq2) as [Hnp Hnpq].
  assert (len (state (next_track e1 s)) = len s) as Hl1 by (unfold len; by rewrite Hnq).
  assert (len (state (previous_track e1 s)) = len s) as Hl2 by (unfold len; by rewrite Hpq).
  subst forth back. rewrite Hpn, Hnp, Hpnq, Hnpq, Hl1, Hl2, Hn, Hp, Hnq, Hpq.
  rewrite Zminus_mod_idemp_l, Zplus_mod_idemp_l.
  replace (current_track_index s + 1 - 1) with (current_track_index s) by lia.
  replace (current_track_index s - 1 + 1) with (current_track_index s) by lia.
  rewrite Z.mod_small by done. done.
Qed.

Lemma next_previous_inverse_witness :
  current_playlist Sample.playing_B ≠ []
  ∧ current_track_index
      (state (previous_track Sample.hostile
                (state (next_track Sample.calm Sample.playing_B)))) = 1.
Proof.
  assert (current_playlist Sample.playing_B ≠ []) as Hq by (vm_compute; discriminate).
  assert (0 ≤ current_track_index Sample.playing_B < len Sample.playing_B) as Hc
    by (vm_compute; split; [discriminate|reflexivity]).
  split; [exact Hq|].
  pose proof (next_previous_inverse Sample.calm Sample.hostile Sample.playing_B Hq Hc) as H.
  simpl in H. destruct H as (H & _). exact H.
Defined.

(** X6.  [play] with a non-empty list, when the call comes back and
    [Popen] succeeds, ends playing the first track of that list and not
    paused, whatever the controller was doing before.  From a session
    that is not paused the call always comes back.  From a paused one
    whose process is still running it does not, unless [terminate] or
    [wait] raise: [stop] waits for a process that cannot act on
    SIGTERM, and [Popen] is never reached. *)
Theorem play_starts_first_track
    (t : Track) (ts : list Track) (e : Env) (s : State) (p : Proc) (running : bool) :
  consistent s = true →
  popen_result e = inl p →
  let r := play (Some (t :: ts)) e s in
  (Blocking.returns running (Play (Some (t :: ts))) e s = true →
   state r = mkState (t :: ts) 0 true false (Some p)
   ∧ raised r = None
   ∧ trace r = trace (stop e s)
               ++ [ESpawn (mpv_argv t) p;
                   EPrint ("Now playing: " +:+ track_filename t
                           +:+ " - " +:+ track_artist t)])
  ∧ (is_paused s = false →
     Blocking.returns running (Play (Some (t :: ts))) e s = true)
  ∧ (is_paused s = true → running = true →
     terminate_raises e = false → wait_raises e = false →
     Blocking.returns running (Play (Some (t :: ts))) e s = false).
Proof.
  intros Hc Hpopen.
  unfold play, stop, consistent, Blocking.returns, Blocking.play_returns,
    Blocking.wait_blocks in *.
  destruct s as [q i pl pa [p0|]]; simpl in *; rewrite Hpopen; simpl.
  - split; [done|]. split; [by intros ->|]. by intros -> -> -> ->.
  - by destruct pl, pa.
Qed.

Lemma play_starts_first_track_witness :
  consistent Sample.playing_B = true
  ∧ is_paused Sample.playing_B = false
  ∧ Blocking.returns true (Play (Some [Sample.trackC])) Sample.calm Sample.playing_B = true
  ∧ state (play (Some [Sample.trackC]) Sample.calm Sample.playing_B)
    = mkState [Sample.trackC] 0 true false (Some 7%nat).
Proof.
  split; [reflexivity|]. split; [reflexivity|].
  destruct (play_starts_first_track Sample.trackC [] Sample.calm Sample.playing_B
              7%nat true eq_refl eq_refl) as (Hstate & Hreturns & _).
  split; [exact (Hreturns eq_refl)|].
  destruct (Hstate (Hreturns eq_refl)) as (H & _). exact H.
Defined.

End PlayerRuns.

(** * More on the catalog *)

Section CatalogRuns.
Import Catalog ScanRows.

Ltac scan_file_step meta root file t a :=
  let p := fresh "p" in
  set (p := Py.path_join root file) in *;
  destruct (scan_file_cases meta root file t a)
    as [(Hskip & Heq)
       | [(Hsup & Hvalid & Heq)
         | [(Hsup & Hvalid & Hnew & Hbind & Heq)
           | (Hsup & Hvalid & Hnew & Hbind & artist & album & d & Hext & Heq)]]];
  fold p in Heq; rewrite Heq in *; clear Heq.

Lemma foldr_max_ge (i : Z) (rest : list Z) (x : Z) :
  x ∈ i :: rest → x ≤ foldr Z.max i rest.
Proof.
  induction rest as [|r rest IH]; simpl; intros Hx.
  - apply list_elem_of_singleton in Hx. lia.
  - apply elem_of_cons in Hx as [->|Hx].
    + etrans; [apply IH, list_elem_of_here|]. lia.
    + apply elem_of_cons in Hx as [->|Hx]; [lia|].
      etrans; [apply IH; by apply list_elem_of_further|]. lia.
Qed.

Lemma next_rowid_fresh (ids : list Z) : next_rowid ids ∉ ids.
Proof.
  destruct ids as [|i rest]; [apply not_elem_of_nil|].
  intros Hin. apply foldr_max_ge in Hin. simpl in Hin. lia.
Qed.

Lemma scan_pairs_ids meta pairs t a t' res :
  scan_pairs meta pairs t a = (t', res) →
  NoDup (map row_id (tracks t)) → NoDup (map row_id (tracks t')).
Proof.
  revert t a. induction pairs as [|[root file] rest IH]; intros t a; simpl.
  - by intros [= <- <-].
  - scan_file_step meta root file t a.
    + apply IH.
    + by intros [= <- <-].
    + by intros [= <- <-].
    + intros Hrest Hnd. apply (IH _ _ Hrest).
      unfold add_track_row. simpl. rewrite map_app. simpl.
      apply NoDup_app. split; [done|]. split; [|apply NoDup_singleton].
      intros x Hx Hx'. apply list_elem_of_singleton in Hx'. subst x.
      by apply next_rowid_fresh in Hx.
Qed.

Lemma scan_pairs_news meta pairs t a t' res :
  scan_pairs meta pairs t a = (t', res) →
  ∃ news, t' = add_track_rows t news ∧ Forall (row_of_visited pairs t) news.
Proof.
  revert t a. induction pairs as [|[root file] rest IH]; intros t a; simpl.
  - intros [= <- <-]. exists []. by rewrite add_track_rows_nil.
  - scan_file_step meta root file t a.
    + intros Hrest. destruct (IH _ _ Hrest) as (news & -> & Hnews).
      exists news. split; [done|]. eapply Forall_impl; [done|].
      intros row (r & f & Hin & Hrow). exists r, f.
      split; [by apply list_elem_of_further|done].
    + intros [= <- <-]. exists []. by rewrite add_track_rows_nil.
    + intros [= <- <-]. exists []. by rewrite add_track_rows_nil.
    + intros Hrest. destruct (IH _ _ Hrest) as (news & -> & Hnews).
      exists (mkTrackRow (next_rowid (map row_id (tracks t)))
                         p file artist album d :: news).
      rewrite add_track_rows_row. split; [done|]. constructor.
      * exists root, file. simpl. repeat split; try done. apply list_elem_of_here.
      * eapply Forall_impl; [done|].
        intros row (r & f & Hin & Hs & Hp & Hf & Hn). exists r, f.
        repeat split; try done; [by apply list_elem_of_further|].
        intros Hold. apply Hn. rewrite paths_add_track_row.
        apply elem_of_app. by left.
Qed.

Lemma scan_music_library_appends fs meta music_dir c :
  ∃ news,
    view (scan_music_library fs meta music_dir c).1 = add_track_rows (view c) news
    ∧ Forall (row_of_visited (visited (Os.walk music_dir fs)) (view c)) news.
Proof.
  rewrite scan_music_library_pairs.
  destruct (scan_pairs meta (visited (Os.walk music_dir fs)) (view c) 0)
    as [t' [e|n]] eqn:Hscan; simpl; by eapply scan_pairs_news.
Qed.

(** X7.  A scan only appends to [tracks]: the rows that were there stay
    where and as they were, the playlist tables are not touched, and
    each added row is for a file the walk visited, with a supported
    extension and a path that was not catalogued, and carries that
    file's name.  Row ids stay pairwise different. *)
Theorem scan_only_appends fs meta music_dir c :
  let r := scan_music_library fs meta music_dir c in
  (∃ news,
     view r.1 = add_track_rows (view c) news
     ∧ Forall (row_of_visited (visited (Os.walk music_dir fs)) (view c)) news)
  ∧ (NoDup (map row_id (tracks (view c))) →
     NoDup (map row_id (tracks (view r.1)))).
Proof.
  intros r. subst r. split; [apply scan_music_library_appends|].
  rewrite scan_music_library_pairs.
  destruct (scan_pairs meta (visited (Os.walk music_dir fs)) (view c) 0)
    as [t' [e|n]] eqn:Hscan; simpl; by eapply scan_pairs_ids.
Qed.

Lemma scan_only_appends_witness :
  let r := scan_music_library Sample.library Sample.library_meta
                              "/home/u/Music" (commit empty) in
  NoDup (map row_id (tracks (view (commit empty))))
  ∧ NoDup (map row_id (tracks (view r.1)))
  ∧ map row_id (tracks (view r.1)) = [1; 2; 3; 4].
Proof.
  intros r.
  assert (NoDup (map row_id (tracks (view (commit empty))))) as Hnd by apply NoDup_nil_2.
  split; [exact Hnd|]. split; [|reflexivity].
  destruct (scan_only_appends Sample.library Sample.library_meta
              "/home/u/Music" (commit empty)) as [_ H].
  apply (H Hnd).
Defined.

Lemma binds_false_iff m :
  binds m = false ↔
  ∃ tags l, m = MutagenTags tags ∧ tags !! "length"%string = Some l
            ∧ default ["Unknown Artist"%string] (tags !! "artist"%string) ≠ []
            ∧ default ["Unknown Album"%string] (tags !! "album"%string) ≠ [].
Proof.
  unfold binds, extract_metadata. split.
  - destruct m as [| |tags]; [done|done|]. intros H. exists tags.
    destruct (default ["Unknown Artist"%string] (tags !! "artist"%string)) as [|a la];
      [done|].
    destruct (default ["Unknown Album"%string] (tags !! "album"%string)) as [|b lb];
      [done|].
    cbn in H. destruct (tags !! "length"%string) as [l|]; [|done]. by exists l.
  - intros (tags & l & -> & Hl & Ha & Hb).
    destruct (default ["Unknown Artist"%string] (tags !! "artist"%string)) as [|a la];
      [done|].
    destruct (default ["Unknown Album"%string] (tags !! "album"%string)) as [|b lb];
      [done|].
    cbn. by rewrite Hl.
Qed.

(** X8.  The database file being in order, a scan stops at an exception
    exactly when the walk visits an audio file whose path is not UTF-8,
    or one that is not in the catalog and whose extracted duration
    sqlite3 cannot bind, which is a file whose tags are readable, have
    a ['length'] entry and have no empty ['artist'] or ['album'] list.
    The exception is the encoding error or the binding error, each only
    where the walk has a file of its kind.  Nothing is then committed: what was committed before is
    unchanged; a scan that returns has committed everything the
    connection sees. *)
Theorem scan_aborts_exactly_at_refused_parameter fs meta music_dir c :
  let r := scan_music_library fs meta music_dir c in
  let ps := audio_paths (Os.walk music_dir fs) in
  ((∃ e, r.2 = inl e) ↔
   ∃ q, q ∈ ps
        ∧ (Py.utf8_valid q = false
           ∨ ((q ∉ paths (view c))
              ∧ ∃ tags l,
                  meta q = MutagenTags tags ∧ tags !! "length"%string = Some l
                  ∧ default ["Unknown Artist"%string] (tags !! "artist"%string) ≠ []
                  ∧ default ["Unknown Album"%string] (tags !! "album"%string) ≠ [])))
  ∧ (r.2 = inl UnicodeEncodeError → ∃ q, q ∈ ps ∧ Py.utf8_valid q = false)
  ∧ (r.2 = inl ProgrammingError →
     ∃ q, q ∈ ps ∧ Py.utf8_valid q = true ∧ (q ∉ paths (view c))
          ∧ binds (meta q) = false)
  ∧ (∀ e, r.2 = inl e →
          (e = UnicodeEncodeError ∨ e = ProgrammingError)
          ∧ durable r.1 = durable c)
  ∧ (∀ n, r.2 = inr n → durable r.1 = view r.1).
Proof.
  intros r ps.
  assert (∀ e, r.2 = inl e →
            ∃ q, q ∈ ps
                 ∧ ((e = UnicodeEncodeError ∧ Py.utf8_valid q = false)
                    ∨ (e = ProgrammingError ∧ Py.utf8_valid q = true
                       ∧ (q ∉ paths (view c))
                       ∧ unreadable (meta q) = false ∧ binds (meta q) = false)))
    as Hwhy by (intros e; apply scan_music_library_raises).
  split; [split|split; [|split; [|split]]].
  - intros [e He]. destruct (Hwhy e He) as (q & Hq & [[_ Hv]|(_ & _ & Hn & _ & Hb)]);
      exists q; (split; [done|]); [by left|right].
    split; [done|]. by apply binds_false_iff.
  - intros (q & Hq & Hcause). subst r. rewrite scan_music_library_pairs.
    destruct (scan_pairs_must_raise meta (visited (Os.walk music_dir fs))
                (view c) 0 q Hq) as (t' & e & Hscan).
    + destruct Hcause as [?|[Hn Htags]]; [by left|right]. split; [done|].
      by apply binds_false_iff.
    + rewrite Hscan. by exists e.
  - intros He. destruct (Hwhy _ He) as (q & Hq & [[_ Hv]|(Hne & _)]); [|done].
    by exists q.
  - intros He. destruct (Hwhy _ He) as (q & Hq & [[Hne _]|(_ & Hv & Hn & _ & Hb)]);
      [done|]. by exists q.
  - intros e He. split.
    + destruct (Hwhy _ He) as (q & Hq & [[-> _]|(-> & _)]); [by left|by right].
    + revert He. subst r. rewrite scan_music_library_pairs.
      by destruct (scan_pairs meta (visited (Os.walk music_dir fs)) (view c) 0)
        as [t' [e'|n]].
  - intros n. subst r. rewrite scan_music_library_pairs.
    by destruct (scan_pairs meta (visited (Os.walk music_dir fs)) (view c) 0)
      as [t' [e'|n']].
Qed.

Lemma scan_aborts_exactly_at_refused_parameter_witness :
  let r := scan_music_library Sample.library Sample.library_meta_with_length
                              "/home/u/Music" (commit empty) in
  r.2 = inl ProgrammingError
  ∧ paths (view r.1) = ["/home/u/Music/a.mp3"%string]
  ∧ durable r.1 = empty
  ∧ ∃ q, q ∈ audio_paths (Os.walk "/home/u/Music" Sample.library)
         ∧ Py.utf8_valid q = true
         ∧ (q ∉ paths empty)
         ∧ binds (Sample.library_meta_with_length q) = false.
Proof.
  intros r. split; [reflexivity|]. split; [reflexivity|]. split; [reflexivity|].
  destruct (scan_aborts_exactly_at_refused_parameter Sample.library
              Sample.library_meta_with_length "/home/u/Music" (commit empty))
    as (_ & _ & H & _).
  apply H. reflexivity.
Defined.

(** X9.  Pages of [get_tracks] fit together: with non-negative limits
    and offset, the page of [n] rows at [offset] followed by the page
    of [m] rows at [offset + n] is the page of [n + m] rows at
    [offset], with or without a search term; a page never has more than
    [limit] rows, and a negative limit returns everything from the
    offset on. *)
Theorem get_tracks_pages c (n m offset : Z) (search : option string) :
  0 ≤ n → 0 ≤ m → 0 ≤ offset →
  get_tracks c n offset search ++ get_tracks c m (offset + n) search
  = get_tracks c (n + m) offset search
  ∧ (length (get_tracks c n offset search) ≤ Z.to_nat n)%nat
  ∧ get_tracks c n offset search = take (Z.to_nat n) (get_tracks c (-1) offset search).
Proof.
  intros Hn Hm Hoff. unfold get_tracks, limit_offset.
  rewrite !decide_False by lia. rewrite decide_True by lia.
  set (selected := match search with
                   | Some (String _ _ as term) => _
                   | _ => _
                   end).
  rewrite <- fmap_app, !Z2Nat.inj_add by lia.
  rewrite <- drop_drop, take_take_drop. split; [done|]. split.
  - rewrite length_fmap, length_take. lia.
  - by rewrite fmap_take.
Qed.

Lemma get_tracks_pages_witness :
  let c := (scan_music_library Sample.library Sample.library_meta
                               "/home/u/Music" (commit empty)).1 in
  map track_id (get_tracks c 1 0 None ++ get_tracks c 2 1 None) = [1; 2; 3]
  ∧ get_tracks c 1 0 None ++ get_tracks c 2 (0 + 1) None = get_tracks c (1 + 2) 0 None.
Proof.
  intros c. split; [reflexivity|].
  apply (get_tracks_pages c 1 2 0 None); lia.
Defined.

(** ** Searching *)











Lemma limit_offset_subseteq {A} (limit offset : Z) (rows : list A) (x : A) :
  x ∈ limit_offset limit offset rows → x ∈ rows.
Proof.
  unfold limit_offset. intros H.
  assert (x ∈ drop (Z.to_nat offset) rows) as H'.
  { case_decide; [done|]. by eapply subseteq_take. }
  by eapply subseteq_drop.
Qed.



(** ** Playlists *)



(** X12.  After [create_playlist] succeeds, [list_playlists] is what it
    was plus the new playlist at the end, under an id no playlist had;
    the association table has grown by one row per given track, in
    order and with repetitions kept, all under that id; and everything
    is committed. *)
Theorem create_then_list_playlists name (tracks : list Track) c (msg : string) :
  (create_playlist name tracks c).2 = inr msg →
  let c' := (create_playlist name tracks c).1 in
  let new_id := next_rowid (map playlist_id (playlists (view c))) in
  list_playlists c' = list_playlists c ++ [(new_id, name)]
  ∧ (new_id ∉ map fst (list_playlists c))
  ∧ (name ∉ map snd (list_playlists c))
  ∧ playlist_tracks (view c')
    = playlist_tracks (view c) ++ map (λ t, (new_id, track_id t)) tracks
  ∧ durable c' = view c'
  ∧ msg = ("Playlist '" +:+ name +:+ "' created with "
           +:+ pretty (length tracks) +:+ " tracks.")%string.
Proof.
  unfold create_playlist, list_playlists. case_bool_decide as Hin; simpl; [done|].
  intros [= <-]. rewrite map_app. simpl. repeat split; try done.
  - rewrite map_map. simpl. apply next_rowid_fresh.
  - by rewrite map_map.
Qed.

Lemma create_then_list_playlists_witness :
  let r := create_playlist "Mix" [Sample.trackA; Sample.trackA; Sample.ghost]
                           (commit empty) in
  r.2 = inr "Playlist 'Mix' created with 3 tracks."%string
  ∧ list_playlists r.1 = [(1, "Mix"%string)]
  ∧ playlist_tracks (view r.1) = [(1, 1); (1, 1); (1, 99)].
Proof.
  intros r.
  assert (r.2 = inr "Playlist 'Mix' created with 3 tracks."%string) as Hok
    by reflexivity.
  split; [exact Hok|].
  destruct (create_then_list_playlists "Mix"
              [Sample.trackA; Sample.trackA; Sample.ghost] (commit empty) _ Hok)
    as (H1 & _ & _ & H2 & _).
  split; [exact H1|exact H2].
Defined.

End CatalogRuns.

(** * The command loop *)

Section ShellRuns.
Import Player Session Shell ShellInvariant.

Lemma getitem_0 {A} (l : list A) : Py.getitem l 0 = l !! 0%nat.
Proof.
  unfold Py.getitem. destruct l as [|x l]; cbn [length];
    repeat case_decide; try done; lia.
Qed.

Lemma get_tracks_one c (offset : Z) :
  Py.getitem (Catalog.get_tracks c 1 offset None) 0
  = Catalog.to_track <$> Catalog.tracks (Catalog.view c) !! Z.to_nat offset.
Proof.
  rewrite getitem_0. unfold Catalog.get_tracks, Catalog.limit_offset.
  case_decide; [lia|].
  rewrite list_lookup_fmap, lookup_take_lt, lookup_drop by (simpl; lia).
  by rewrite Nat.add_0_r.
Qed.

(** X13.  [play N], for a number [N] with [N - 1] in SQLite's 64-bit
    range, hands [play] the N-th track in catalog order, counting from
    1, as a queue of that one track.  Within that range, a number that
    is 1 or less, zero and negative numbers included, gives the first
    track, and a number beyond the catalog is answered with the error
    line of an [IndexError] and changes nothing.  Outside that range
    the answer is the error line of an [OverflowError], and for a word
    that [int] rejects that of a [ValueError]; neither changes
    anything. *)
Theorem play_by_number int w (number : string) (args : list string) sh :
  let rows := Catalog.tracks (Catalog.view (conn sh)) in
  let answer := dispatch int w ("play"%string :: number :: args) sh in
  (int number = None → answer = (sh, [Failed ValueError], true))
  ∧ ∀ n, int number = Some n →
      (¬ fits_sqlite (n - 1) → answer = (sh, [Failed OverflowError], true))
      ∧ (fits_sqlite (n - 1) →
         answer
         = match rows !! Z.to_nat (n - 1) with
           | Some row =>
               call (play (Some [Catalog.to_track row]) (env w) (player sh)) sh
           | None => (sh, [Failed IndexError], true)
           end
         ∧ (n ≤ 1 →
            answer = match rows with
                     | row :: _ =>
                         call (play (Some [Catalog.to_track row]) (env w) (player sh)) sh
                     | [] => (sh, [Failed IndexError], true)
                     end)
         ∧ (Z.of_nat (length rows) < n → answer = (sh, [Failed IndexError], true))
         ∧ (∀ row, rows !! Z.to_nat (n - 1) = Some row →
              current_playlist (player answer.1.1) = [Catalog.to_track row]
              ∧ current_track_index (player answer.1.1) = 0)).
Proof.
  intros rows answer. split.
  { intros Hint. subst answer. unfold dispatch. simpl. by rewrite Hint. }
  intros n Hint. split.
  { intros Hfits. subst answer. unfold dispatch. simpl.
    by rewrite Hint, decide_False. }
  intros Hfits.
  assert (answer
          = match rows !! Z.to_nat (n - 1) with
            | Some row => call (play (Some [Catalog.to_track row]) (env w) (player sh)) sh
            | None => (sh, [Failed IndexError], true)
            end) as Hanswer.
  { subst answer. unfold dispatch. simpl. rewrite Hint, decide_True by done.
    rewrite get_tracks_one. fold rows. by destruct (rows !! Z.to_nat (n - 1)). }
  split; [exact Hanswer|]. split; [|split].
  - intros Hn. rewrite Hanswer. replace (Z.to_nat (n - 1)) with 0%nat by lia.
    by destruct rows.
  - intros Hn. rewrite Hanswer. rewrite lookup_ge_None_2; [done|]. lia.
  - intros row Hrow. rewrite Hanswer, Hrow. unfold call. simpl.
    by rewrite play_queue, play_index.
Qed.

Lemma play_by_number_witness :
  let sh := start "/home/u/Music"
              (Catalog.view (Catalog.scan_music_library Sample.library Sample.library_meta
                               "/home/u/Music" (Catalog.commit Catalog.empty)).1) in
  let w := mkWorld Sample.calm Sample.library Sample.library_meta in
  Sample.int_of_word "-2" = Some (-2)
  ∧ fits_sqlite (-2 - 1)
  ∧ map track_filename
        (current_playlist (player (dispatch Sample.int_of_word w ["play"; "-2"]%string sh).1.1))
    = ["a.mp3"%string]
  ∧ dispatch Sample.int_of_word w ["play"; "7"]%string sh = (sh, [Failed IndexError], true)
  ∧ ¬ fits_sqlite (Sample.huge - 1)
  ∧ dispatch Sample.int_of_word w ["play"; "9223372036854775809"]%string sh
    = (sh, [Failed OverflowError], true)
  ∧ dispatch Sample.int_of_word w ["play"; "one"]%string sh
    = (sh, [Failed ValueError], true).
Proof.
  intros sh w. split; [reflexivity|].
  assert (fits_sqlite (-2 - 1)) as Hf1 by (unfold fits_sqlite; lia).
  assert (fits_sqlite (7 - 1)) as Hf2 by (unfold fits_sqlite; lia).
  assert (¬ fits_sqlite (Sample.huge - 1)) as Hf3
    by (unfold fits_sqlite, Sample.huge; lia).
  split; [exact Hf1|]. split; [|split; [|split; [exact Hf3|split]]].
  - destruct (play_by_number Sample.int_of_word w "-2" [] sh) as [_ H].
    destruct (H (-2) eq_refl) as [_ H'].
    destruct (H' Hf1) as (_ & _ & _ & H'').
    destruct (H'' (Catalog.mkTrackRow 1 "/home/u/Music/a.mp3" "a.mp3" "Ann" "First" 0)
                  eq_refl) as [-> _].
    reflexivity.
  - destruct (play_by_number Sample.int_of_word w "7" [] sh) as [_ H].
    destruct (H 7 eq_refl) as [_ H'].
    destruct (H' Hf2) as (_ & _ & H'' & _).
    apply H''. vm_compute. reflexivity.
  - destruct (play_by_number Sample.int_of_word w "9223372036854775809" [] sh) as [_ H].
    destruct (H Sample.huge eq_refl) as [H' _]. exact (H' Hf3).
  - destruct (play_by_number Sample.int_of_word w "one" [] sh) as [H _].
    exact (H eq_refl).
Defined.

(** What a pass can be: nothing for the state, a scan, or one command
    of the controller, a [play] being handed rows of the catalog. *)
Lemma dispatch_cases int w command sh :
  (∃ out continue, dispatch int w command sh = (sh, out, continue))
  ∨ (∃ out,
       dispatch int w command sh
       = (mkShell (Catalog.scan_music_library (tree w) (metadata w)
                     (music_dir sh) (conn sh)).1 (music_dir sh) (player sh),
          out, true))
  ∨ (∃ c,
       dispatch int w command sh = call (exec c (env w) (player sh)) sh
       ∧ ∀ tracks, c = Play tracks →
           ∃ l, tracks = Some l
                ∧ ∀ t, t ∈ l →
                    ∃ row, row ∈ Catalog.tracks (Catalog.view (conn sh))
                           ∧ t = Catalog.to_track row).
Proof.
  assert (∀ limit offset t,
            t ∈ Catalog.get_tracks (conn sh) limit offset None →
            ∃ row, row ∈ Catalog.tracks (Catalog.view (conn sh))
                   ∧ t = Catalog.to_track row) as Hrows.
  { intros limit offset t Ht. unfold Catalog.get_tracks in Ht.
    apply list_elem_of_fmap in Ht as (row & -> & Hin).
    apply limit_offset_subseteq in Hin. by exists row. }
  unfold dispatch. destruct command as [|word args]; [left; by eauto|].
  simpl.
  repeat match goal with
         | |- context [if ?b then _ else _] => destruct b eqn:?
         end.
  - destruct (Catalog.scan_music_library _ _ _ _) as [c [e|n]];
      right; left; by eauto.
  - left. by eauto.
  - destruct args as [|number args'].
    + right. right.
      eexists (Play (Some _)). split; [done|]. intros tracks [= <-].
      eexists. split; [done|]. intros t Ht. by eapply Hrows.
    + destruct (int number) as [n|]; [|left; by eauto].
      case_decide; [|left; by eauto].
      destruct (Py.getitem _ 0) as [t|] eqn:Ht; [|left; by eauto].
      right. right. eexists (Play (Some [t])). split; [done|].
      intros tracks [= <-]. eexists. split; [done|].
      intros t' Ht'. apply list_elem_of_singleton in Ht' as ->.
      rewrite getitem_0 in Ht. apply list_elem_of_lookup_2 in Ht.
      by eapply Hrows.
  - right. right. by exists Pause.
  - right. right. by exists Resume.
  - right. right. by exists Stop.
  - right. right. by exists Next.
  - right. right. by exists Previous.
  - right. right. by exists Shuffle.
  - left. destruct args; by eauto.
  - left. by eauto.
  - left. by eauto.
  - left. by eauto.
  - left. by eauto.
  - left. by eauto.
Qed.

Lemma exec_queue c e s t :
  t ∈ current_playlist (state (exec c e s)) →
  t ∈ current_playlist s ∨ ∃ l, c = Play (Some l) ∧ t ∈ l.
Proof.
  destruct c as [tracks| | | | | |]; simpl.
  - rewrite play_queue. destruct tracks as [[|x l]|]; simpl; eauto.
  - unfold pause. destruct s as [q i pl pa [p|]]; simpl; [|by eauto].
    destruct (send_signal_raises e); simpl; eauto.
  - unfold resume. destruct s as [q i pl [] [p|]]; simpl; try (by eauto).
    destruct (send_signal_raises e); simpl; eauto.
  - unfold stop. destruct s as [q i pl pa [p|]]; simpl; eauto.
  - unfold next_track. destruct (current_playlist s) eqn:E; simpl.
    + rewrite E. eauto.
    + rewrite play_queue. simpl. rewrite E. eauto.
  - unfold previous_track. destruct (current_playlist s) eqn:E; simpl.
    + rewrite E. eauto.
    + rewrite play_queue. simpl. rewrite E. eauto.
  - unfold shuffle_playlist. destruct (current_playlist s) eqn:E; simpl.
    + rewrite E. eauto.
    + rewrite shuffle_perm. eauto.
Qed.

Lemma dispatch_kept int w command sh :
  consistent (player sh) = true →
  cursor_valid (player sh) = true →
  queue_in_catalog sh →
  kept sh (dispatch int w command sh).1.1.
Proof.
  intros Hc Hv Hq. unfold kept.
  destruct (dispatch_cases int w command sh)
    as [(out & b & ->) | [(out & ->) | (c & -> & Hplay)]]; simpl.
  - repeat split; try done. exists []. by rewrite app_nil_r.
  - destruct (scan_music_library_appends (tree w) (metadata w) (music_dir sh) (conn sh))
      as (news & Hview & _).
    rewrite Hview. simpl. repeat split; try done; [|by exists news].
    intros t Ht. destruct (Hq t Ht) as (row & Hrow & ->). exists row.
    split; [|done]. simpl. rewrite Hview. simpl. apply elem_of_app. by left.
  - split; [by apply exec_consistent|]. split; [by apply exec_cursor_valid|].
    repeat split; try done; [|exists []; by rewrite app_nil_r].
    intros t Ht. simpl in *. apply exec_queue in Ht as [Ht|(l & -> & Ht)].
    + by apply Hq.
    + destruct (Hplay _ eq_refl) as (l' & [= <-] & Hl). by apply Hl.
Qed.

(** X14.  Whatever is typed and whatever the outside world answers,
    the loop keeps the controller consistent (a handle exactly while
    playing, paused only then) and its cursor inside the queue, every
    queued track is a row of the catalog, the catalog's tracks are only
    added to at the end, and the playlist tables stay as the database
    had them: no command creates a playlist. *)
Theorem loop_keeps_state_sound int (script : list (World * list string)) sh :
  consistent (player sh) = true →
  cursor_valid (player sh) = true →
  queue_in_catalog sh →
  kept sh (loop int script sh).1.
Proof.
  revert sh. induction script as [|[w command] rest IH]; intros sh Hc Hv Hq; simpl.
  - unfold kept. repeat split; try done. exists []. by rewrite app_nil_r.
  - pose proof (dispatch_kept int w command sh Hc Hv Hq) as Hstep.
    destruct (dispatch int w command sh) as [[sh1 out] [|]]; simpl in *; [|done].
    destruct Hstep as (Hc1 & Hv1 & Hq1 & Hm1 & Hp1 & Hpt1 & news1 & Ht1).
    specialize (IH sh1 Hc1 Hv1 Hq1).
    destruct (loop int rest sh1) as [sh2 out2]; simpl in *.
    destruct IH as (Hc2 & Hv2 & Hq2 & Hm2 & Hp2 & Hpt2 & news2 & Ht2).
    unfold kept. repeat split; try done; try congruence.
    exists (news1 ++ news2). by rewrite Ht2, Ht1, app_assoc.
Qed.

Lemma loop_keeps_state_sound_witness :
  let sh := start "/home/u/Music" Catalog.empty in
  let w := mkWorld Sample.calm Sample.library Sample.library_meta in
  let script := [(w, ["scan"%string]); (w, ["PLAY"%string]);
                 (w, ["next"%string]); (w, ["pause"%string]);
                 (w, ["shuffle"%string]); (w, ["play"%string; "7"%string])] in
  consistent (player sh) = true
  ∧ current_track_index (player (loop Sample.int_of_word script sh).1) = 1
  ∧ is_paused (player (loop Sample.int_of_word script sh).1) = true
  ∧ kept sh (loop Sample.int_of_word script sh).1.
Proof.
  intros sh w script. split; [reflexivity|]. split; [reflexivity|].
  split; [reflexivity|].
  apply (loop_keeps_state_sound Sample.int_of_word script sh); [reflexivity..|].
  intros t Ht. by apply elem_of_nil in Ht.
Defined.

Lemma lower_char_idem (c : Ascii.ascii) :
  Py.lower_char (Py.lower_char c) = Py.lower_char c.
Proof. destruct c as [[] [] [] [] [] [] [] []]; reflexivity. Qed.

Lemma lower_idem (s : string) : Py.lower (Py.lower s) = Py.lower s.
Proof.
  induction s as [|c s IH]; simpl; [done|]. by rewrite lower_char_idem, IH.
Qed.

(** X15.  The first word of a line is taken without regard to the case
    of its ASCII letters; only [exit] ends the loop, and it prints
    nothing and changes nothing; a word that is none of the thirteen
    commands is passed over in silence; and [search] without a term
    does nothing. *)
Theorem dispatch_reads_command_word int w (word : string) (args : list string) sh :
  dispatch int w (word :: args) sh = dispatch int w (Py.lower word :: args) sh
  ∧ ((dispatch int w (word :: args) sh).2 = false ↔ Py.lower word = "exit"%string)
  ∧ (Py.lower word = "exit"%string → dispatch int w (word :: args) sh = (sh, [], false))
  ∧ (Py.lower word ∉ command_words → dispatch int w (word :: args) sh = (sh, [], true))
  ∧ (Py.lower word = "search"%string → dispatch int w [word] sh = (sh, [], true)).
Proof.
  split; [unfold dispatch; by rewrite lower_idem|].
  assert (Py.lower word = "exit"%string →
          dispatch int w (word :: args) sh = (sh, [], false)) as Hexit.
  { intros H. unfold dispatch. by rewrite H. }
  split; [|split; [exact Hexit|split]].
  - split; [|intros H; by rewrite (Hexit H)].
    unfold dispatch, call.
    repeat match goal with
           | |- context [if ?b then _ else _] => destruct b eqn:?
           end; try done; repeat case_match; try done.
    intros _. by apply String.eqb_eq.
  - intros Hnot. unfold dispatch.
    repeat match goal with
           | |- context [String.eqb ?a ?b] =>
               destruct (String.eqb_spec a b) as [Heq|_];
               [destruct Hnot; rewrite Heq; unfold command_words;
                repeat (first [apply list_elem_of_here|apply list_elem_of_further])|]
           end.
    done.
  - intros H. unfold dispatch. by rewrite H.
Qed.

Lemma dispatch_reads_command_word_witness :
  let sh := start "/home/u/Music" Catalog.empty in
  let w := mkWorld Sample.calm Sample.library Sample.library_meta in
  (Py.lower "Quit" ∉ command_words)
  ∧ dispatch Sample.int_of_word w ["Quit"%string] sh = (sh, [], true)
  ∧ dispatch Sample.int_of_word w ["EXIT"%string] sh = (sh, [], false).
Proof.
  intros sh w.
  assert (Py.lower "Quit" ∉ command_words) as Hnot.
  { vm_compute. intros Hin.
    repeat (apply elem_of_cons in Hin as [Hin|Hin]; [discriminate Hin|]).
    by apply elem_of_nil in Hin. }
  split; [exact Hnot|].
  destruct (dispatch_reads_command_word Sample.int_of_word w "Quit" [] sh)
    as (_ & _ & _ & Hother & _).
  destruct (dispatch_reads_command_word Sample.int_of_word w "EXIT" [] sh)
    as (_ & _ & Hexit & _).
  split; [by apply Hother|by apply Hexit].
Defined.

(** X16.  [play] without a number queues the first ten tracks of the
    catalog, in catalog order, and starts at the first of them; over an
    empty catalog it keeps the queue it has, and with no queue either
    it only prints that there is nothing to play. *)
Theorem play_without_number int w (word : string) sh :
  Py.lower word = "play"%string →
  let rows := Catalog.tracks (Catalog.view (conn sh)) in
  let answer := dispatch int w [word] sh in
  (rows ≠ [] →
     current_playlist (player answer.1.1) = Catalog.to_track <$> take 10 rows
     ∧ current_track_index (player answer.1.1) = 0)
  ∧ (rows = [] →
     current_playlist (player answer.1.1) = current_playlist (player sh)
     ∧ current_track_index (player answer.1.1) = current_track_index (player sh)
     ∧ (current_playlist (player sh) = [] →
        answer = (sh, [print "No tracks to play."], true))).
Proof.
  intros Hword rows answer.
  assert (answer = call (play (Some (Catalog.to_track <$> take 10 rows))
                              (env w) (player sh)) sh) as ->.
  { subst answer. unfold dispatch. rewrite Hword. simpl.
    unfold Catalog.get_tracks, Catalog.limit_offset. simpl.
    change (Z.to_nat 0) with 0%nat. by rewrite drop_0. }
  unfold call. simpl. rewrite play_queue, play_index. split.
  - intros Hrows. destruct rows as [|row rows']; [done|]. done.
  - intros ->. simpl. split; [done|]. split; [done|].
    intros Hq. unfold play. simpl. rewrite Hq. simpl. by destruct sh.
Qed.

Lemma play_without_number_witness :
  let w := mkWorld Sample.calm Sample.library Sample.library_meta in
  let sh := (loop Sample.int_of_word [(w, ["scan"%string])]
                  (start "/home/u/Music" Catalog.empty)).1 in
  Py.lower "Play" = "play"%string
  ∧ Catalog.tracks (Catalog.view (conn sh)) ≠ []
  ∧ map track_id (current_playlist
                    (player (dispatch Sample.int_of_word w ["Play"%string] sh).1.1))
    = [1; 2; 3; 4].
Proof.
  intros w sh. split; [reflexivity|].
  assert (Catalog.tracks (Catalog.view (conn sh)) ≠ []) as Hrows
    by (vm_compute; discriminate).
  split; [exact Hrows|].
  destruct (play_without_number Sample.int_of_word w "Play" sh eq_refl) as [H _].
  destruct (H Hrows) as [-> _]. reflexivity.
Defined.

End ShellRuns.

Section ScanThenList.
Import Catalog.

(** X17.  After a scan that returned, every audio file of the walk is
    listed by [get_tracks] without limit, under its full path, and the
    number the scan returned is the number of tracks listed now that
    were not listed before. *)
Theorem scan_then_get_tracks fs meta music_dir c (n : Z) :
  (scan_music_library fs meta music_dir c).2 = inr n →
  let c' := (scan_music_library fs meta music_dir c).1 in
  (∀ p, p ∈ audio_paths (Os.walk music_dir fs) →
        ∃ t, t ∈ get_tracks c' (-1) 0 None ∧ track_path t = p)
  ∧ Z.of_nat (length (get_tracks c' (-1) 0 None))
    = Z.of_nat (length (get_tracks c (-1) 0 None)) + n
  ∧ take (length (get_tracks c (-1) 0 None)) (get_tracks c' (-1) 0 None)
    = get_tracks c (-1) 0 None.
Proof.
  rewrite scan_music_library_pairs.
  destruct (scan_pairs meta (visited (Os.walk music_dir fs)) (view c) 0)
    as [t' [e|n']] eqn:Hscan; simpl; [done|]. intros [= ->].
  assert (∀ c0, get_tracks c0 (-1) 0 None = to_track <$> tracks (view c0)) as Hall.
  { intros c0. unfold get_tracks, limit_offset. simpl. by rewrite drop_0. }
  rewrite !Hall. simpl.
  destruct (scan_pairs_rows _ _ _ _ _ _ Hscan) as (news & -> & _ & Hcount).
  split; [|split].
  - intros p Hp. pose proof (scan_pairs_covered _ _ _ _ _ _ _ Hscan Hp) as Hin.
    unfold paths in Hin. apply list_elem_of_fmap in Hin as (row & -> & Hrow).
    exists (to_track row). split; [|done]. apply list_elem_of_fmap. by exists row.
  - simpl. rewrite !length_fmap, length_app, (Hcount n eq_refl). lia.
  - simpl. rewrite fmap_app, length_fmap.
    rewrite take_app_length'; [done|]. by rewrite length_fmap.
Qed.

Lemma scan_then_get_tracks_witness :
  let r := scan_music_library Sample.library Sample.library_meta
                              "/home/u/Music" (commit empty) in
  r.2 = inr 4
  ∧ Z.of_nat (length (get_tracks r.1 (-1) 0 None))
    = Z.of_nat (length (get_tracks (commit empty) (-1) 0 None)) + 4.
Proof.
  intros r.
  assert (r.2 = inr 4) as Hok by reflexivity.
  split; [exact Hok|].
  destruct (scan_then_get_tracks Sample.library Sample.library_meta
              "/home/u/Music" (commit empty) 4 Hok) as (_ & H & _).
  exact H.
Defined.

End ScanThenList.
